(** * The two-tier TTL cache of [cache_manager.py]

    A shallow embedding of [CacheManager]: the memory tier
    ([self._memory_cache]), the durable tier (the files of [cache_dir]),
    the wall clock, the faults of the filesystem and the log are the fields
    of a [world]; every method is a computation in a state-and-exception
    monad over that world, and [try: ... except Exception] is the monad's
    [try_except].

    What the model leaves out: threads (methods run one at a time, so
    [self._lock] does nothing), the rounding of floats (seconds are exact
    rationals), and the text of files and of timestamps (a file is the
    document that [json.load] reads from it, a timestamp the [datetime] that
    [fromisoformat] reads from it). *)

From Stdlib Require Import ZArith QArith List String Ascii Lia Bool.
From stdpp Require Import gmap strings list fin_maps.

Set Warnings "-register-all".
Close Scope Q_scope.
Local Open Scope string_scope.
Local Open Scope Z_scope.

(* ===================================================================== *)
(** ** [hashlib.sha256(...).hexdigest()]

    FIPS 180-4 on bytes, with 32-bit words as [Z] reduced modulo [2^32].
    The round constants are computed the way the standard defines them
    (fractional parts of the square and cube roots of the first primes). *)
(* ===================================================================== *)

Module SHA256.

Definition w32 (x : Z) : Z := x mod 2 ^ 32.

Definition rotr (n x : Z) : Z :=
  Z.lor (Z.shiftr x n) (w32 (Z.shiftl x (32 - n))).

Definition Ch (x y z : Z) : Z :=
  Z.lxor (Z.land x y) (Z.land (Z.lxor x (2 ^ 32 - 1)) z).

Definition Maj (x y z : Z) : Z :=
  Z.lxor (Z.lxor (Z.land x y) (Z.land x z)) (Z.land y z).

Definition big_sigma0 (x : Z) : Z := Z.lxor (Z.lxor (rotr 2 x) (rotr 13 x)) (rotr 22 x).
Definition big_sigma1 (x : Z) : Z := Z.lxor (Z.lxor (rotr 6 x) (rotr 11 x)) (rotr 25 x).
Definition small_sigma0 (x : Z) : Z := Z.lxor (Z.lxor (rotr 7 x) (rotr 18 x)) (Z.shiftr x 3).
Definition small_sigma1 (x : Z) : Z := Z.lxor (Z.lxor (rotr 17 x) (rotr 19 x)) (Z.shiftr x 10).

(** Largest [r] with [r^3 <= n], found bit by bit from bit [bits - 1] down. *)
Fixpoint cbrt_bits (bits : nat) (n r : Z) : Z :=
  match bits with
  | O => r
  | S b =>
      let r' := r + 2 ^ Z.of_nat b in
      cbrt_bits b n (if r' * r' * r' <=? n then r' else r)
  end.

Definition primes64 : list Z :=
  [2; 3; 5; 7; 11; 13; 17; 19; 23; 29; 31; 37; 41; 43; 47; 53;
   59; 61; 67; 71; 73; 79; 83; 89; 97; 101; 103; 107; 109; 113; 127; 131;
   137; 139; 149; 151; 157; 163; 167; 173; 179; 181; 191; 193; 197; 199; 211; 223;
   227; 229; 233; 239; 241; 251; 257; 263; 269; 271; 277; 281; 283; 293; 307; 311].

(** First 32 bits of the fractional part of the cube root of each prime. *)
Definition K : list Z :=
  Eval vm_compute in List.map (fun p => w32 (cbrt_bits 40 (p * 2 ^ 96) 0)) primes64.

(** First 32 bits of the fractional part of the square root of the first
    eight primes. *)
Definition H0 : list Z :=
  Eval vm_compute in List.map (fun p => w32 (Z.sqrt (p * 2 ^ 64))) (firstn 8 primes64).

(** The message schedule, newest word first: [W_t] is computed from
    [W_(t-2)], [W_(t-7)], [W_(t-15)] and [W_(t-16)]. *)
Fixpoint schedule (n : nat) (rev_w : list Z) : list Z :=
  match n with
  | O => rev_w
  | S n' =>
      let wt := w32 (small_sigma1 (nth 1 rev_w 0) + nth 6 rev_w 0
                     + small_sigma0 (nth 14 rev_w 0) + nth 15 rev_w 0) in
      schedule n' (wt :: rev_w)
  end.

Definition round (st : list Z) (kw : Z * Z) : list Z :=
  match st with
  | [a; b; c; d; e; f; g; h] =>
      let t1 := h + big_sigma1 e + Ch e f g + fst kw + snd kw in
      let t2 := big_sigma0 a + Maj a b c in
      [w32 (t1 + t2); a; b; c; w32 (d + t1); e; f; g]
  | _ => st
  end.

Definition compress (h : list Z) (block : list Z) : list Z :=
  let w := rev (schedule 48 (rev block)) in
  let st := fold_left round (combine K w) h in
  List.map (fun p => w32 (fst p + snd p)) (combine h st).

(** Big-endian grouping of bytes into 32-bit words. *)
Fixpoint words_of_bytes (bs : list Z) : list Z :=
  match bs with
  | b0 :: b1 :: b2 :: b3 :: rest =>
      (((b0 * 256 + b1) * 256 + b2) * 256 + b3) :: words_of_bytes rest
  | _ => []
  end.

Fixpoint blocks_of (fuel : nat) (ws : list Z) : list (list Z) :=
  match fuel, ws with
  | S fuel', _ :: _ => firstn 16 ws :: blocks_of fuel' (skipn 16 ws)
  | _, _ => []
  end.

Definition pad (msg : list Z) : list Z :=
  let len := Z.of_nat (List.length msg) in
  let zeros := Z.to_nat ((55 - len) mod 64) in
  let bits := len * 8 in
  msg ++ [128] ++ repeat 0 zeros
      ++ List.map (fun i => Z.shiftr bits (8 * i) mod 256) [7; 6; 5; 4; 3; 2; 1; 0].

Definition digest (msg : list Z) : list Z :=
  let ws := words_of_bytes (pad msg) in
  fold_left compress (blocks_of (List.length ws) ws) H0.

Definition hex_digit (d : Z) : ascii :=
  nth (Z.to_nat d) (list_ascii_of_string "0123456789abcdef") "0"%char.

Definition hex_of_word (w : Z) : string :=
  string_of_list_ascii
    (List.map (fun i => hex_digit (Z.shiftr w (4 * i) mod 16)) [7; 6; 5; 4; 3; 2; 1; 0]).

Definition bytes_of_string (s : string) : list Z :=
  List.map (fun c => Z.of_N (N_of_ascii c)) (list_ascii_of_string s).

(** [hashlib.sha256(data).hexdigest()]: 64 lower-case hexadecimal digits. *)
Definition hexdigest (data : string) : string :=
  String.concat "" (List.map hex_of_word (digest (bytes_of_string data))).

End SHA256.

(* ===================================================================== *)
(** ** Python values *)
(* ===================================================================== *)

(** [datetime] and [timedelta] count microseconds, the resolution of both
    Python types: a naive [datetime] is a point of the local time line, a
    [timedelta] a signed distance on it. *)
Definition datetime := Z.
Definition timedelta := Z.

(** [timedelta.total_seconds()]. Python returns the float nearest to this
    rational; numbers are modelled exactly, as rationals, throughout. *)
Definition total_seconds (d : timedelta) : Q := Qmake d 1000000.

(** [bool(d)] of a [timedelta]: false exactly for [timedelta(0)]. *)
Definition timedelta_bool (d : timedelta) : bool := negb (d =? 0).

(** The values that cache entries and payloads are made of: what
    [json.load] can return, and [PObject] for any object that [json.dump]
    cannot serialise. A [str] is represented by what
    [datetime.fromisoformat] makes of it: [PIso t] is an ISO-8601 text of the
    naive datetime [t] (what [datetime.isoformat()] writes), [PStr s] any
    text that [fromisoformat] rejects. A [dict] has [str] keys and is the
    list of its items; the first item of a key is the key's. *)
Inductive pyval : Type :=
| PNone
| PBool (b : bool)
| PNum (q : Q)
| PStr (s : string)
| PIso (t : datetime)
| PList (items : list pyval)
| PDict (items : list (string * pyval))
| PObject (id : nat).

Inductive exn : Type :=
| KeyError (key : string)
| TypeError
| ValueError
| OSError
| JSONDecodeError.

Inductive result (A : Type) : Type :=
| Ok (a : A)
| Raise (e : exn).
Arguments Ok {A} a.
Arguments Raise {A} e.

(** Truth value of an object ([if v:], [v and ...]); an object that
    [json] does not know is true, as Python objects are unless they say
    otherwise. *)
Definition truthy (v : pyval) : bool :=
  match v with
  | PNone => false
  | PBool b => b
  | PNum q => negb (Qnum q =? 0)
  | PStr s => match s with EmptyString => false | String _ _ => true end
  | PIso _ => true
  | PList items => match items with [] => false | _ :: _ => true end
  | PDict items => match items with [] => false | _ :: _ => true end
  | PObject _ => true
  end.

Fixpoint assoc (key : string) (items : list (string * pyval)) : option pyval :=
  match items with
  | [] => None
  | (k, v) :: rest => if String.eqb k key then Some v else assoc key rest
  end.

(** [v[key]] for a [str] key: only a dict can be subscripted by it. *)
Definition getitem (v : pyval) (key : string) : result pyval :=
  match v with
  | PDict items =>
      match assoc key items with
      | Some x => Ok x
      | None => Raise (KeyError key)
      end
  | _ => Raise TypeError
  end.

(** [datetime.fromisoformat(v)]. *)
Definition fromisoformat (v : pyval) : result datetime :=
  match v with
  | PIso t => Ok t
  | PStr _ => Raise ValueError
  | _ => Raise TypeError
  end.

Definition Qltb (x y : Q) : bool := Qnum x * QDen y <? Qnum y * QDen x.

(** [x < v] for a float [x]: [v] has to be a number ([True] is [1]). *)
Definition float_lt (x : Q) (v : pyval) : result bool :=
  match v with
  | PNum q => Ok (Qltb x q)
  | PBool b => Ok (Qltb x (if b then 1%Q else 0%Q))
  | _ => Raise TypeError
  end.

(** Whether [json.dump] accepts the value. *)
Fixpoint serialisable (v : pyval) : bool :=
  match v with
  | PObject _ => false
  | PList items => forallb serialisable items
  | PDict items => forallb (fun kv => serialisable (snd kv)) items
  | _ => true
  end.

(* ===================================================================== *)
(** ** The world *)
(* ===================================================================== *)

(** What a file of [cache_dir] holds, seen through [json.load]: a document,
    or text that does not decode. *)
Inductive file : Type :=
| Undecodable
| Json (doc : pyval).

(** The fate of one filesystem call, fixed by the environment. A call
    other than a write takes [io_fail_midway] as [io_fail]. *)
Inductive io_outcome : Type :=
| io_ok            (* the call goes through *)
| io_fail          (* it raises OSError and changes nothing *)
| io_fail_midway.  (* a write raises after the file was truncated *)

Inductive log_record : Type :=
| INFO (msg : string)
| ERROR (msg : string) (e : exn).

Record world : Type := mkWorld {
  memory_cache : gmap string pyval;   (* self._memory_cache *)
  cache_dir : gmap string file;       (* the files of self._cache_dir, by name *)
  clock : datetime;                   (* what the next datetime.now() returns *)
  clock_later : list datetime;        (* the readings after it; the last one stays *)
  faults : list io_outcome;           (* fates of the next filesystem calls; none left: io_ok *)
  log : list log_record               (* newest first *)
}.

Definition set_memory_cache (f : gmap string pyval → gmap string pyval) (w : world) : world :=
  mkWorld (f (memory_cache w)) (cache_dir w) (clock w) (clock_later w) (faults w) (log w).

Definition set_cache_dir (f : gmap string file → gmap string file) (w : world) : world :=
  mkWorld (memory_cache w) (f (cache_dir w)) (clock w) (clock_later w) (faults w) (log w).

Definition set_log (f : list log_record → list log_record) (w : world) : world :=
  mkWorld (memory_cache w) (cache_dir w) (clock w) (clock_later w) (faults w) (f (log w)).

(** Every reading the clock will still give. *)
Definition readings (w : world) : list datetime := clock w :: clock_later w.

(* ===================================================================== *)
(** ** State and exceptions *)
(* ===================================================================== *)

Definition M (A : Type) : Type := world → result A * world.

Definition ret {A} (a : A) : M A := fun w => (Ok a, w).

Definition raise {A} (e : exn) : M A := fun w => (Raise e, w).

Definition bind {A B} (m : M A) (k : A → M B) : M B := fun w =>
  match m w with
  | (Ok a, w') => k a w'
  | (Raise e, w') => (Raise e, w')
  end.

(** [try: body except Exception as e: handler]. *)
Definition try_except {A} (body : M A) (handler : exn → M A) : M A := fun w =>
  match body w with
  | (Ok a, w') => (Ok a, w')
  | (Raise e, w') => handler e w'
  end.

Definition lift {A} (r : result A) : M A := fun w => (r, w).

Definition gets {A} (f : world → A) : M A := fun w => (Ok (f w), w).

Definition modify (f : world → world) : M unit := fun w => (Ok tt, f w).

Declare Scope cache_scope.
Delimit Scope cache_scope with cache.
Notation "x <- c1 ;; c2" := (bind c1 (fun x => c2))
  (at level 100, c1 at next level, right associativity) : cache_scope.
Notation "c1 ;; c2" := (bind c1 (fun _ => c2))
  (at level 100, c2 at level 200, right associativity) : cache_scope.
Local Open Scope cache_scope.

Fixpoint for_each {A} (l : list A) (body : A → M unit) : M unit :=
  match l with
  | [] => ret tt
  | x :: rest => body x ;; for_each rest body
  end.

(** *** The environment's primitives *)

(** The world once the clock has been read: the next reading comes up, and
    the last one stays. *)
Definition tick (w : world) : world :=
  mkWorld (memory_cache w) (cache_dir w)
          (hd (clock w) (clock_later w)) (tl (clock_later w)) (faults w) (log w).

(** [datetime.now()]. *)
Definition datetime_now : M datetime := fun w => (Ok (clock w), tick w).

(** The world once a filesystem call has met its fate. *)
Definition io_done (w : world) : world :=
  mkWorld (memory_cache w) (cache_dir w) (clock w) (clock_later w) (tl (faults w)) (log w).

(** The fate of the filesystem call being made. *)
Definition next_outcome : M io_outcome := fun w => (Ok (hd io_ok (faults w)), io_done w).

Definition logger_info (msg : string) : M unit :=
  modify (set_log (cons (INFO msg))).

Definition logger_error (msg : string) (e : exn) : M unit :=
  modify (set_log (cons (ERROR msg e))).

(** [Path.exists()]: whether the file is there; a failing call raises. *)
Definition path_exists (name : string) : M bool :=
  o <- next_outcome ;;
  match o with
  | io_ok => d <- gets cache_dir ;; ret (bool_decide (is_Some (d !! name)))
  | _ => raise OSError
  end.

(** [with path.open('r') as f: json.load(f)]. *)
Definition json_load_file (name : string) : M pyval :=
  o <- next_outcome ;;
  match o with
  | io_ok =>
      d <- gets cache_dir ;;
      match d !! name with
      | Some (Json doc) => ret doc
      | Some Undecodable => raise JSONDecodeError
      | None => raise OSError
      end
  | _ => raise OSError
  end.

(** [with path.open('w') as f: json.dump(data, f)]: opening truncates the
    file, and [json.dump] writes piece by piece, so a value it cannot
    serialise leaves an unfinished document behind. *)
Definition json_dump_file (name : string) (data : pyval) : M unit :=
  o <- next_outcome ;;
  match o with
  | io_ok =>
      if serialisable data
      then modify (set_cache_dir (insert name (Json data)))
      else (modify (set_cache_dir (insert name Undecodable)) ;; raise TypeError)
  | io_fail => raise OSError
  | io_fail_midway =>
      modify (set_cache_dir (insert name Undecodable)) ;; raise OSError
  end.

(** [Path.unlink()]: a file that is not there is an error
    ([FileNotFoundError] is an [OSError]). *)
Definition unlink (name : string) : M unit :=
  o <- next_outcome ;;
  match o with
  | io_ok =>
      d <- gets cache_dir ;;
      match d !! name with
      | Some _ => modify (set_cache_dir (delete name))
      | None => raise OSError
      end
  | _ => raise OSError
  end.

Fixpoint has_suffix (suffix s : string) : bool :=
  String.eqb s suffix
  || match s with
     | EmptyString => false
     | String _ rest => has_suffix suffix rest
     end.

(** [self._cache_dir.glob("*.cache")]: the directory is listed once, up
    front. The order in which the system lists it is not specified; the
    map's own order stands for it. *)
Definition glob_cache : M (list string) :=
  o <- next_outcome ;;
  match o with
  | io_ok =>
      d <- gets cache_dir ;;
      ret (List.filter (has_suffix ".cache") (map_to_list d).*1)
  | _ => raise OSError
  end.

(** [Path.mkdir(exist_ok=True)]. *)
Definition mkdir : M unit :=
  o <- next_outcome ;;
  match o with
  | io_ok => ret tt
  | _ => raise OSError
  end.

(* ===================================================================== *)
(** ** [class CacheManager] *)
(* ===================================================================== *)

Module CacheManager.

(** [__init__]: an empty memory tier over the directory, which is created
    when missing. Nothing guards the [mkdir]. *)
Definition __init__ : M unit :=
  modify (set_memory_cache (fun _ => ∅)) ;;
  mkdir.

(** [_get_cache_file_path]: the name of the key's file in [cache_dir]. A key
    is the byte string of its UTF-8 encoding. *)
Definition _get_cache_file_path (key : string) : string :=
  SHA256.hexdigest key +:+ ".cache".

(** [_is_cache_valid]: [not max_age] holds for [None] and for
    [timedelta(0)]; [cache_entry["ttl"]] is tested for truth, so [None] and
    [0] both send the entry to the [max_age] comparison. *)
Definition _is_cache_valid (cache_entry : pyval) (max_age : option timedelta) : M bool :=
  match max_age with
  | None => ret true
  | Some max_age =>
      if negb (timedelta_bool max_age) then ret true
      else
        timestamp <- lift (getitem cache_entry "timestamp") ;;
        cached_time <- lift (fromisoformat timestamp) ;;
        now <- datetime_now ;;
        let age : timedelta := now - cached_time in
        ttl <- lift (getitem cache_entry "ttl") ;;
        if truthy ttl
        then lift (float_lt (total_seconds age) ttl)
        else ret (age <? max_age)
  end.

(** [_read_cache_file]: the decoded file, or [None] after any failure. *)
Definition _read_cache_file (cache_file : string) : M pyval :=
  try_except
    (json_load_file cache_file)
    (fun e => logger_error "Error reading cache file" e ;; ret PNone).

Definition _write_cache_file (cache_file : string) (data : pyval) : M unit :=
  try_except
    (json_dump_file cache_file data)
    (fun e => logger_error "Error writing cache file" e).

(** The second half of [get]'s [try], reached when the memory tier gave
    nothing: [Some v] when a [return v] was reached, [None] when control
    leaves the block at its end. *)
Definition get_try_disk (key : string) (max_age : option timedelta) : M (option pyval) :=
  let cache_file := _get_cache_file_path key in
  present <- path_exists cache_file ;;
  if present
  then
    cached_data <- _read_cache_file cache_file ;;
    if truthy cached_data
    then
      valid <- _is_cache_valid cached_data max_age ;;
      if valid
      then modify (set_memory_cache (insert key cached_data)) ;;
           logger_info ("Cache hit (disk) for key: " +:+ key) ;;
           data <- lift (getitem cached_data "data") ;;
           ret (Some data)
      else ret None
    else ret None
  else ret None.

(** The body of [get]'s [try]: the memory tier first, then the files. *)
Definition get_try (key : string) (max_age : option timedelta) : M (option pyval) :=
  mem <- gets memory_cache ;;
  hit <- match mem !! key with
         | Some cached_data =>
             valid <- _is_cache_valid cached_data max_age ;;
             if valid
             then logger_info ("Cache hit (memory) for key: " +:+ key) ;;
                  data <- lift (getitem cached_data "data") ;;
                  ret (Some data)
             else ret None
         | None => ret None
         end ;;
  match hit with
  | Some data => ret (Some data)
  | None => get_try_disk key max_age
  end.

(** [get]: the result is a Python value, [None] standing for absence. *)
Definition get (key : string) (max_age : option timedelta) : M pyval :=
  returned <- try_except
                (get_try key max_age)
                (fun e => logger_error "Error retrieving from cache" e ;; ret None) ;;
  match returned with
  | Some data => ret data
  | None => ret PNone
  end.

(** The entry that [set] builds at time [now]. *)
Definition cache_entry_of (now : datetime) (ttl : option timedelta) (data : pyval) : pyval :=
  PDict [("timestamp", PIso now);
         ("ttl", match ttl with
                 | Some ttl => if timedelta_bool ttl then PNum (total_seconds ttl) else PNone
                 | None => PNone
                 end);
         ("data", data)].

Definition set (key : string) (data : pyval) (ttl : option timedelta) : M unit :=
  try_except
    (now <- datetime_now ;;
     let cache_entry := cache_entry_of now ttl data in
     modify (set_memory_cache (insert key cache_entry)) ;;
     let cache_file := _get_cache_file_path key in
     _write_cache_file cache_file cache_entry ;;
     logger_info ("Successfully cached data for key: " +:+ key))
    (fun e => logger_error "Error setting cache" e).

Definition invalidate (key : string) : M unit :=
  try_except
    (modify (set_memory_cache (delete key)) ;;
     let cache_file := _get_cache_file_path key in
     present <- path_exists cache_file ;;
     (if present then unlink cache_file else ret tt) ;;
     logger_info ("Cache invalidated for key: " +:+ key))
    (fun e => logger_error "Error invalidating cache" e).

Definition clear : M unit :=
  try_except
    (modify (set_memory_cache (fun _ => ∅)) ;;
     cache_files <- glob_cache ;;
     for_each cache_files unlink ;;
     logger_info "Cache cleared successfully")
    (fun e => logger_error "Error clearing cache" e).

(** One turn of [cleanup]'s loop over [list(self._memory_cache.keys())]. *)
Definition cleanup_memory_step (max_age : option timedelta) (key : string) : M unit :=
  mem <- gets memory_cache ;;
  match mem !! key with
  | Some cache_entry =>
      valid <- _is_cache_valid cache_entry max_age ;;
      if valid then ret tt else modify (set_memory_cache (delete key))
  | None => raise (KeyError key)
  end.

(** One turn of [cleanup]'s loop over the [*.cache] files. *)
Definition cleanup_disk_step (max_age : option timedelta) (cache_file : string) : M unit :=
  cached_data <- _read_cache_file cache_file ;;
  if truthy cached_data
  then
    valid <- _is_cache_valid cached_data max_age ;;
    if valid then ret tt else unlink cache_file
  else ret tt.

(** [cleanup]. The keys of the memory tier are visited in the map's own
    order, which stands for the dict's insertion order. *)
Definition cleanup (max_age : option timedelta) : M unit :=
  try_except
    (mem <- gets memory_cache ;;
     for_each (map_to_list mem).*1 (cleanup_memory_step max_age) ;;
     cache_files <- glob_cache ;;
     for_each cache_files (cleanup_disk_step max_age) ;;
     logger_info "Cache cleanup completed")
    (fun e => logger_error "Error during cache cleanup" e).

End CacheManager.

(* ===================================================================== *)
(** ** Entries and the vocabulary of the statements *)
(* ===================================================================== *)

(** A cache entry: creation time, optional time-to-live in seconds, and
    payload; [py_of_entry] is the dict that [set] stores for it and that
    [json.dump] writes. *)
Record entry : Type := mkEntry {
  created_at : datetime;
  ttl : option Q;
  payload : pyval
}.

Definition py_of_entry (e : entry) : pyval :=
  PDict [("timestamp", PIso (created_at e));
         ("ttl", match ttl e with Some q => PNum q | None => PNone end);
         ("data", payload e)].

(** The entry that [set] builds, as an [entry]. *)
Definition entry_of (now : datetime) (lifetime : option timedelta) (data : pyval) : entry :=
  mkEntry now
          match lifetime with
          | Some d => if timedelta_bool d then Some (total_seconds d) else None
          | None => None
          end
          data.

(** What [_is_cache_valid] answers for an entry when the clock reads [now]. *)
Definition valid_at (e : entry) (max_age : option timedelta) (now : datetime) : bool :=
  match max_age with
  | None => true
  | Some m =>
      if negb (timedelta_bool m) then true
      else
        let age := now - created_at e in
        match ttl e with
        | Some q => if negb (Qnum q =? 0) then Qltb (total_seconds age) q else age <? m
        | None => age <? m
        end
  end.

(** The validity rule in the words of the specification (section 4.1):
    no [max_age], valid; [max_age] and a stored ttl, the ttl decides;
    [max_age] and no ttl, [max_age] decides. *)
Definition spec_valid (e : entry) (max_age : option timedelta) (now : datetime) : bool :=
  match max_age, ttl e with
  | None, _ => true
  | Some _, Some q => Qltb (total_seconds (now - created_at e)) q
  | Some m, None => now - created_at e <? m
  end.

(** The world after one validity check with [max_age]: the clock is read
    only when [max_age] is a non-zero duration. *)
Definition checked (max_age : option timedelta) (w : world) : world :=
  match max_age with
  | Some m => if timedelta_bool m then tick w else w
  | None => w
  end.

(** Two worlds with the same two tiers: between them only time has passed
    (clock, faults to come and log may differ). *)
Definition same_store (w1 w2 : world) : Prop :=
  memory_cache w2 = memory_cache w1 ∧ cache_dir w2 = cache_dir w1.

(** Every value of the memory tier and every decodable [*.cache] file is an
    entry. *)
Definition entries_only (w : world) : Prop :=
  (∀ key v, memory_cache w !! key = Some v → ∃ e, v = py_of_entry e)
  ∧ (∀ name doc, has_suffix ".cache" name = true →
       cache_dir w !! name = Some (Json doc) → ∃ e, doc = py_of_entry e).

(** The memory tier gives nothing for the key: it is not there, or its
    entry is found expired. *)
Definition memory_miss (key : string) (max_age : option timedelta) (w : world) : Prop :=
  memory_cache w !! key = None
  ∨ ∃ e0, memory_cache w !! key = Some (py_of_entry e0)
          ∧ valid_at e0 max_age (clock w) = false.

(** The world in which [get] turns from the memory tier to the files. *)
Definition after_memory (key : string) (max_age : option timedelta) (w : world) : world :=
  match memory_cache w !! key with
  | Some _ => checked max_age w
  | None => w
  end.

(** The durable tier has nothing valid for the key: no file, a file that
    does not decode, or an entry that is expired at every reading to come. *)
Definition durable_miss (key : string) (max_age : option timedelta) (w : world) : Prop :=
  cache_dir w !! CacheManager._get_cache_file_path key = None
  ∨ cache_dir w !! CacheManager._get_cache_file_path key = Some Undecodable
  ∨ ∃ e, cache_dir w !! CacheManager._get_cache_file_path key = Some (Json (py_of_entry e))
         ∧ Forall (fun t => valid_at e max_age t = false) (readings w).

(** Nothing was added to either tier on the way from [w0] to [w]. *)
Definition shrunk (w0 w : world) : Prop :=
  memory_cache w ⊆ memory_cache w0 ∧ cache_dir w ⊆ cache_dir w0.

(** A computation keeps a property of the world, however it ends. *)
Definition preserves {A} (P : world → Prop) (m : M A) : Prop :=
  ∀ w, P w → P (snd (m w)).

(** A new process on an empty directory, its clock standing at [t]. *)
Definition empty_world (t : datetime) : world := mkWorld ∅ ∅ t [] [] [].

(** [time.sleep] of the scenarios: every reading to come is later by [d]. *)
Definition sleep (d : timedelta) : M unit :=
  modify (fun w => mkWorld (memory_cache w) (cache_dir w) (clock w + d)
                           (List.map (Z.add d) (clock_later w)) (faults w) (log w)).

(** The payload of the scenarios, [{"x": 1}]. *)
Definition x1 : pyval := PDict [("x", PNum 1)].

(** The scenario of the specification's section 8, with the [max_age] that
    the second [get] and the [cleanup] are called with; it returns what the
    two [get]s returned. *)
Definition scenario (max_age : option timedelta) : M (pyval * pyval) :=
  CacheManager.set "a" x1 (Some 2000000) ;;
  r1 <- CacheManager.get "a" None ;;
  sleep 3000000 ;;
  r2 <- CacheManager.get "a" max_age ;;
  CacheManager.cleanup max_age ;;
  ret (r1, r2).

(** What [_read_cache_file] hands back in a given world. *)
Definition read_result (name : string) (w : world) : pyval :=
  match hd io_ok (faults w), cache_dir w !! name with
  | io_ok, Some (Json doc) => doc
  | _, _ => PNone
  end.

(** What a write leaves in the file. *)
Definition written (data : pyval) (w : world) : option file :=
  match hd io_ok (faults w) with
  | io_ok => Some (if serialisable data then Json data else Undecodable)
  | io_fail => None
  | io_fail_midway => Some Undecodable
  end.

Definition is_error (r : log_record) : bool :=
  match r with
  | ERROR _ _ => true
  | INFO _ => false
  end.

(** The number of errors in the log. *)
Definition errors (w : world) : nat := List.length (List.filter is_error (log w)).

(** A process that stored [x1] under ["a"] and was started anew over the
    same directory. *)
Definition restarted : world :=
  snd ((CacheManager.set "a" x1 None ;; CacheManager.__init__) (empty_world 0)).

(** A process that has just stored [x1] under ["a"]. *)
Definition stored : world :=
  snd (CacheManager.set "a" x1 None (empty_world 0)).

(** A process that has just stored [x1] under ["a"] with a ttl of two
    seconds, and the same process three seconds later. *)
Definition stored_ttl : world :=
  snd (CacheManager.set "a" x1 (Some 2000000) (empty_world 0)).

Definition stale : world :=
  snd ((CacheManager.set "a" x1 (Some 2000000) ;; sleep 3000000) (empty_world 0)).

(** A process whose entry for ["a"], stored with a ttl of one second, is
    two seconds old. *)
Definition aged : world :=
  snd ((CacheManager.set "a" x1 (Some 1000000) ;; sleep 2000000) (empty_world 0)).

(** That entry. *)
Definition aged_entry : entry := entry_of 0 (Some 1000000) x1.

(** ** Vocabulary of the further properties *)

(** The characters of a hexadecimal digest. *)
Definition is_hex_digit (c : ascii) : bool :=
  existsb (Ascii.eqb c) (list_ascii_of_string "0123456789abcdef").

(** A directory in which the file of ["a"] holds [{"x": 1}], a document
    with neither timestamp nor data, before a new process. *)
Definition foreign : world :=
  mkWorld ∅ {[CacheManager._get_cache_file_path "a" := Json x1]} 0 [] [] [].

(** A process whose memory tier holds the list [[1]] under ["a"], over a
    directory with one record. *)
Definition poisoned : world :=
  mkWorld {["a" := PList [PNum 1]]}
          {[CacheManager._get_cache_file_path "b" := Json (py_of_entry aged_entry)]}
          2000000 [] [] [].

(** A process whose memory tier holds a fresh entry for ["a"] while the
    file of ["a"] holds another payload. *)
Definition shadowed : world :=
  mkWorld {["a" := py_of_entry (mkEntry 0 None x1)]}
          {[CacheManager._get_cache_file_path "a"
            := Json (py_of_entry (mkEntry 0 None (PStr "other")))]}
          0 [] [] [].

(** The same world with other filesystem failures ahead. *)
Definition with_faults (fs : list io_outcome) (w : world) : world :=
  mkWorld (memory_cache w) (cache_dir w) (clock w) (clock_later w) fs (log w).

Arguments SHA256.hexdigest : simpl never.
Arguments CacheManager.get : simpl never.
Arguments CacheManager.set : simpl never.
Arguments CacheManager.invalidate : simpl never.
Arguments CacheManager.clear : simpl never.
Arguments CacheManager.cleanup : simpl never.
Arguments CacheManager.__init__ : simpl never.
Arguments sleep : simpl never.
Arguments CacheManager._get_cache_file_path : simpl never.
Arguments path_exists : simpl never.
Arguments json_load_file : simpl never.
Arguments json_dump_file : simpl never.
Arguments unlink : simpl never.
Arguments glob_cache : simpl never.
Arguments mkdir : simpl never.
Arguments for_each : simpl never.
Arguments CacheManager._is_cache_valid : simpl never.
Arguments CacheManager._read_cache_file : simpl never.
Arguments CacheManager._write_cache_file : simpl never.
Arguments CacheManager.get_try_disk : simpl never.
Arguments CacheManager.get_try : simpl never.
Arguments CacheManager.cleanup_memory_step : simpl never.
Arguments CacheManager.cleanup_disk_step : simpl never.

Ltac unfold_monad :=
  unfold try_except, bind, gets, ret, raise, modify, lift, logger_info, logger_error;
  simpl.

Import CacheManager.

(* ===================================================================== *)
(** * Properties *)
(* ===================================================================== *)

Example sha256_empty :
  SHA256.hexdigest "" = "e3b0c44298fc1c149afbf4c8996fb92427ae41e4649b934ca495991b7852b855".
Proof. vm_compute. reflexivity. Qed.

Example sha256_a :
  SHA256.hexdigest "a" = "ca978112ca1bbdcafac231b39a23dc4da786eff8147c4e72b9807785afee48bb".
Proof. vm_compute. reflexivity. Qed.

Example sha256_abc :
  SHA256.hexdigest "abc" = "ba7816bf8f01cfea414140de5dae2223b00361a396177a9cb410ff61f20015ad".
Proof. vm_compute. reflexivity. Qed.

Example sha256_two_blocks :
  SHA256.hexdigest "abcdbcdecdefdefgefghfghighijhijkijkljklmklmnlmnomnopnopq"
  = "248d6a61d20638b8e5c026930c3e6039a33ce45964ff2167f6ecedd419db06c1".
Proof. vm_compute. reflexivity. Qed.

(** ** Numbers and durations *)

Lemma Qltb_lt (x y : Q) : Qltb x y = true ↔ (x < y)%Q.
Proof. unfold Qltb, Qlt. apply Z.ltb_lt. Qed.

Lemma total_seconds_lt (a b : timedelta) :
  Qltb (total_seconds a) (total_seconds b) = (a <? b).
Proof.
  unfold Qltb, total_seconds. simpl.
  destruct (Z.ltb_spec a b); [apply Z.ltb_lt | apply Z.ltb_ge]; lia.
Qed.

Lemma timedelta_bool_true (d : timedelta) : timedelta_bool d = true ↔ d ≠ 0.
Proof. unfold timedelta_bool. rewrite negb_true_iff, Z.eqb_neq. tauto. Qed.

(** ** The world's bookkeeping *)

Lemma io_done_fault_free w : faults w = [] → io_done w = w.
Proof. destruct w; simpl; intros ->; reflexivity. Qed.

Lemma readings_tick w t : t ∈ readings (tick w) → t ∈ readings w.
Proof.
  unfold readings, tick; simpl. destruct (clock_later w) as [|t' later]; simpl.
  - auto.
  - intros H. apply elem_of_cons; by right.
Qed.

Lemma readings_checked max_age w t : t ∈ readings (checked max_age w) → t ∈ readings w.
Proof.
  destruct max_age as [m|]; simpl; [|auto].
  destruct (timedelta_bool m); [apply readings_tick | auto].
Qed.

Lemma clock_in_readings w : clock w ∈ readings w.
Proof. apply elem_of_cons; by left. Qed.

Lemma checked_memory m w : memory_cache (checked m w) = memory_cache w.
Proof. destruct m as [d|]; [|reflexivity]. simpl. destruct (timedelta_bool d); reflexivity. Qed.

Lemma checked_cache_dir m w : cache_dir (checked m w) = cache_dir w.
Proof. destruct m as [d|]; [|reflexivity]. simpl. destruct (timedelta_bool d); reflexivity. Qed.

Lemma checked_faults m w : faults (checked m w) = faults w.
Proof. destruct m as [d|]; [|reflexivity]. simpl. destruct (timedelta_bool d); reflexivity. Qed.

(** ** The filesystem calls *)

Lemma path_exists_run name w :
  path_exists name w
  = (match hd io_ok (faults w) with
     | io_ok => Ok (bool_decide (is_Some (cache_dir w !! name)))
     | _ => Raise OSError
     end, io_done w).
Proof.
  unfold path_exists, next_outcome; unfold_monad.
  destruct (hd io_ok (faults w)); reflexivity.
Qed.

Lemma json_load_file_run name w :
  json_load_file name w
  = (match hd io_ok (faults w) with
     | io_ok =>
         match cache_dir w !! name with
         | Some (Json doc) => Ok doc
         | Some Undecodable => Raise JSONDecodeError
         | None => Raise OSError
         end
     | _ => Raise OSError
     end, io_done w).
Proof.
  unfold json_load_file, next_outcome; unfold_monad.
  destruct (hd io_ok (faults w)); simpl; try reflexivity.
  destruct (cache_dir w !! name) as [[|doc]|]; reflexivity.
Qed.

Lemma unlink_run name w :
  unlink name w
  = match hd io_ok (faults w), cache_dir w !! name with
    | io_ok, Some _ => (Ok tt, set_cache_dir (delete name) (io_done w))
    | _, _ => (Raise OSError, io_done w)
    end.
Proof.
  unfold unlink, next_outcome; unfold_monad.
  destruct (hd io_ok (faults w)); simpl;
    destruct (cache_dir w !! name); reflexivity.
Qed.

Lemma glob_cache_run w :
  glob_cache w
  = (match hd io_ok (faults w) with
     | io_ok => Ok (List.filter (has_suffix ".cache") (map_to_list (cache_dir w)).*1)
     | _ => Raise OSError
     end, io_done w).
Proof.
  unfold glob_cache, next_outcome; unfold_monad.
  destruct (hd io_ok (faults w)); reflexivity.
Qed.

(** [_read_cache_file] never raises; it only consumes the call's fate and
    may log an error. *)
Lemma read_cache_file_run name w :
  ∃ new, _read_cache_file name w
         = (Ok (read_result name w), set_log (app new) (io_done w))
         ∧ ((new = [] ∧ is_Some (cache_dir w !! name) ∧ hd io_ok (faults w) = io_ok)
            ∨ (∃ e, new = [ERROR "Error reading cache file" e] ∧ read_result name w = PNone)).
Proof.
  unfold _read_cache_file, read_result; unfold_monad. rewrite json_load_file_run.
  destruct (hd io_ok (faults w));
    [destruct (cache_dir w !! name) as [[|doc]|]|..]; simpl.
  all: try (eexists [_]; split; [reflexivity|]; right; eauto).
  exists []; split.
  - destruct w; reflexivity.
  - left; eauto.
Qed.

Lemma read_cache_file_fault_free name w :
  faults w = [] →
  _read_cache_file name w
  = match cache_dir w !! name with
    | Some (Json doc) => (Ok doc, w)
    | Some Undecodable =>
        (Ok PNone, set_log (cons (ERROR "Error reading cache file" JSONDecodeError)) w)
    | None => (Ok PNone, set_log (cons (ERROR "Error reading cache file" OSError)) w)
    end.
Proof.
  intros Hf. unfold _read_cache_file; unfold_monad. rewrite json_load_file_run.
  rewrite (io_done_fault_free w Hf), Hf. simpl.
  destruct (cache_dir w !! name) as [[|doc]|]; reflexivity.
Qed.

Lemma write_cache_file_run name data w :
  ∃ new, _write_cache_file name data w
         = (Ok tt,
            set_log (app new)
              (set_cache_dir (match written data w with
                              | Some f => insert name f
                              | None => id
                              end) (io_done w))).
Proof.
  unfold _write_cache_file, written, json_dump_file, next_outcome; unfold_monad.
  destruct (hd io_ok (faults w)); simpl;
    [destruct (serialisable data); simpl|..].
  1: exists [].
  2-4: eexists [_].
  all: destruct w; reflexivity.
Qed.

(** ** The validity check *)

Lemma is_cache_valid_entry (e : entry) (max_age : option timedelta) (w : world) :
  _is_cache_valid (py_of_entry e) max_age w
  = (Ok (valid_at e max_age (clock w)), checked max_age w).
Proof.
  unfold _is_cache_valid, valid_at, checked.
  destruct max_age as [m|]; [|reflexivity].
  destruct (timedelta_bool m); [|reflexivity].
  destruct e as [t [q|] d]; unfold_monad; [|reflexivity].
  destruct (Qnum q =? 0); reflexivity.
Qed.

(** Whatever the value, a check leaves the world alone or reads the clock
    once. *)
Lemma is_cache_valid_frame (v : pyval) (max_age : option timedelta) (w : world) :
  snd (_is_cache_valid v max_age w) = w ∨ snd (_is_cache_valid v max_age w) = tick w.
Proof.
  unfold _is_cache_valid. destruct max_age as [m|]; [|by left].
  destruct (timedelta_bool m); [|by left]. unfold_monad.
  destruct (getitem v "timestamp") as [ts|]; [|by left].
  destruct (fromisoformat ts); [|by left].
  destruct (getitem v "ttl") as [x|]; [|by right].
  destruct (truthy x); [|by right].
  destruct (float_lt _ x); by right.
Qed.

Lemma cache_entry_of_entry now ttl data :
  cache_entry_of now ttl data = py_of_entry (entry_of now ttl data).
Proof.
  destruct ttl as [d|]; [|reflexivity].
  unfold cache_entry_of, py_of_entry, entry_of; simpl.
  destruct (timedelta_bool d); reflexivity.
Qed.

(** An entry that [set] stamped with a non-zero ttl expires by that ttl,
    whatever non-zero [max_age] the reader passes. *)
Lemma valid_at_entry_of now T data M t :
  T ≠ 0 → M ≠ 0 →
  valid_at (entry_of now (Some T) data) (Some M) t = (t - now <? T).
Proof.
  intros HT HM. apply timedelta_bool_true in HT, HM.
  unfold valid_at, entry_of; simpl. rewrite HM, HT; simpl.
  fold (timedelta_bool T). rewrite HT. apply total_seconds_lt.
Qed.

(** ** [set] *)

Lemma set_run key data ttl w :
  ∃ w', set key data ttl w = (Ok tt, w')
        ∧ memory_cache w' = <[key := cache_entry_of (clock w) ttl data]> (memory_cache w)
        ∧ cache_dir w'
          = match written (cache_entry_of (clock w) ttl data) w with
            | Some f => <[_get_cache_file_path key := f]> (cache_dir w)
            | None => cache_dir w
            end
        ∧ clock w' = clock (tick w) ∧ clock_later w' = clock_later (tick w)
        ∧ faults w' = tl (faults w).
Proof.
  unfold set; unfold_monad.
  match goal with |- context [_write_cache_file ?f ?d ?w0] =>
    destruct (write_cache_file_run f d w0) as (new & ->) end.
  eexists; split; [reflexivity|]. simpl. repeat split.
  unfold written; simpl. destruct (hd io_ok (faults w)); reflexivity.
Qed.

(** ** [get] *)

Lemma get_memory_hit key max_age w e :
  memory_cache w !! key = Some (py_of_entry e) →
  valid_at e max_age (clock w) = true →
  get key max_age w
  = (Ok (payload e),
     set_log (cons (INFO ("Cache hit (memory) for key: " +:+ key))) (checked max_age w)).
Proof.
  intros Hmem Hvalid. unfold get, get_try; unfold_monad.
  rewrite Hmem, is_cache_valid_entry, Hvalid. reflexivity.
Qed.

Lemma after_memory_dir key max_age w :
  cache_dir (after_memory key max_age w) = cache_dir w.
Proof. unfold after_memory. destruct (_ !! _); [apply checked_cache_dir | reflexivity]. Qed.

Lemma after_memory_memory key max_age w :
  memory_cache (after_memory key max_age w) = memory_cache w.
Proof. unfold after_memory. destruct (_ !! _); [apply checked_memory | reflexivity]. Qed.

Lemma after_memory_faults key max_age w :
  faults (after_memory key max_age w) = faults w.
Proof. unfold after_memory. destruct (_ !! _); [apply checked_faults | reflexivity]. Qed.

Lemma readings_after_memory key max_age w t :
  t ∈ readings (after_memory key max_age w) → t ∈ readings w.
Proof. unfold after_memory. destruct (_ !! _); [apply readings_checked | auto]. Qed.

Lemma get_try_memory_miss key max_age w :
  memory_miss key max_age w →
  get_try key max_age w = get_try_disk key max_age (after_memory key max_age w).
Proof.
  unfold get_try, after_memory; unfold_monad.
  intros [-> | (e0 & -> & Hexpired)]; [reflexivity|].
  rewrite is_cache_valid_entry, Hexpired. reflexivity.
Qed.

Lemma get_try_disk_hit key max_age w e :
  faults w = [] →
  cache_dir w !! _get_cache_file_path key = Some (Json (py_of_entry e)) →
  valid_at e max_age (clock w) = true →
  get_try_disk key max_age w
  = (Ok (Some (payload e)),
     set_log (cons (INFO ("Cache hit (disk) for key: " +:+ key)))
       (set_memory_cache (insert key (py_of_entry e)) (checked max_age w))).
Proof.
  intros Hf Hdir Hvalid. unfold get_try_disk; unfold_monad.
  rewrite path_exists_run, Hf, (io_done_fault_free w Hf), Hdir. simpl.
  rewrite (read_cache_file_fault_free _ _ Hf), Hdir. simpl.
  rewrite is_cache_valid_entry, Hvalid. reflexivity.
Qed.

Lemma get_try_disk_nothing key max_age w :
  durable_miss key max_age w →
  ∃ r w', get_try_disk key max_age w = (r, w')
          ∧ (r = Ok None ∨ ∃ e, r = Raise e)
          ∧ same_store w w'
          ∧ (faults w = [] → faults w' = [])
          ∧ (∀ t, t ∈ readings w' → t ∈ readings w).
Proof.
  intros Hmiss. unfold get_try_disk; unfold_monad. rewrite path_exists_run.
  assert (Hio : faults w = [] → faults (io_done w) = []) by (simpl; by intros ->).
  destruct (hd io_ok (faults w)) eqn:Hfate; simpl.
  2,3: do 2 eexists; split; [reflexivity|]; split_and!; by eauto.
  destruct (bool_decide _); simpl.
  2: do 2 eexists; split; [reflexivity|]; split_and!; by eauto.
  destruct (read_cache_file_run (_get_cache_file_path key) (io_done w))
    as (new & -> & _).
  assert (Hio2 : faults w = [] → tail (tail (faults w)) = []) by (by intros ->).
  unfold read_result. simpl.
  destruct Hmiss as [-> | [-> | (e & -> & Hexpired)]].
  - destruct (hd io_ok (tail (faults w))); simpl;
      do 2 eexists; (split; [reflexivity|]); split_and!; by eauto.
  - destruct (hd io_ok (tail (faults w))); simpl;
      do 2 eexists; (split; [reflexivity|]); split_and!; by eauto.
  - destruct (hd io_ok (tail (faults w))); simpl.
    2,3: do 2 eexists; (split; [reflexivity|]); split_and!; by eauto.
    rewrite is_cache_valid_entry. simpl.
    rewrite Forall_forall in Hexpired.
    rewrite (Hexpired (clock w) (clock_in_readings w)).
    do 2 eexists; split; [reflexivity|]. split; [eauto|].
    split_and!; simpl; rewrite ?checked_memory, ?checked_cache_dir, ?checked_faults;
      eauto.
    + split; simpl; by rewrite ?checked_memory, ?checked_cache_dir.
    + intros t Ht. by apply readings_checked in Ht.
Qed.

(** [get] finds nothing when neither tier has anything valid, whatever
    the filesystem does. *)
Lemma get_nothing key max_age w :
  memory_miss key max_age w →
  durable_miss key max_age w →
  ∃ w', get key max_age w = (Ok PNone, w')
        ∧ same_store w w'
        ∧ (faults w = [] → faults w' = [])
        ∧ (∀ t, t ∈ readings w' → t ∈ readings w).
Proof.
  intros Hmem Hdisk. unfold get; unfold_monad.
  rewrite (get_try_memory_miss _ _ _ Hmem).
  destruct (get_try_disk_nothing key max_age (after_memory key max_age w))
    as (r & w' & -> & Hr & [Hm Hd] & Hf & Hrd).
  { unfold durable_miss in *. rewrite after_memory_dir.
    destruct Hdisk as [? | [? | (e & ? & Hexpired)]]; [by left | by right; left |].
    right; right. exists e. split; [done|].
    rewrite Forall_forall in *. intros t Ht.
    apply Hexpired. by apply readings_after_memory in Ht. }
  rewrite after_memory_memory in Hm. rewrite after_memory_dir in Hd.
  rewrite after_memory_faults in Hf.
  assert (∀ t, t ∈ readings w' → t ∈ readings w) as Hrd'.
  { intros t Ht. eapply readings_after_memory, Hrd, Ht. }
  destruct Hr as [-> | (e & ->)]; simpl; eexists; (split; [reflexivity|]);
    split_and!; done.
Qed.

Lemma get_disk_hit key max_age w e :
  faults w = [] →
  memory_miss key max_age w →
  cache_dir w !! _get_cache_file_path key = Some (Json (py_of_entry e)) →
  Forall (fun t => valid_at e max_age t = true) (readings w) →
  ∃ w', get key max_age w = (Ok (payload e), w')
        ∧ memory_cache w' = <[key := py_of_entry e]> (memory_cache w)
        ∧ cache_dir w' = cache_dir w
        ∧ faults w' = [].
Proof.
  intros Hf Hmem Hdir Hvalid. unfold get; unfold_monad.
  rewrite (get_try_memory_miss _ _ _ Hmem).
  rewrite (get_try_disk_hit _ _ _ e).
  - simpl. eexists; split; [reflexivity|]. simpl.
    rewrite checked_memory, checked_cache_dir, checked_faults.
    rewrite after_memory_memory, after_memory_dir, after_memory_faults. done.
  - by rewrite after_memory_faults.
  - by rewrite after_memory_dir.
  - rewrite Forall_forall in Hvalid. apply Hvalid.
    apply readings_after_memory with key max_age. apply clock_in_readings.
Qed.

(** ** [invalidate] *)

Lemma invalidate_fault_free key w :
  faults w = [] →
  ∃ w', invalidate key w = (Ok tt, w')
        ∧ memory_cache w' = delete key (memory_cache w)
        ∧ cache_dir w' = delete (_get_cache_file_path key) (cache_dir w)
        ∧ faults w' = []
        ∧ log w' = INFO ("Cache invalidated for key: " +:+ key) :: log w.
Proof.
  intros Hf. unfold invalidate; unfold_monad.
  rewrite path_exists_run. simpl. rewrite Hf. simpl.
  destruct (cache_dir w !! _get_cache_file_path key) as [f|] eqn:Hdir.
  - rewrite bool_decide_eq_true_2 by (by eexists).
    rewrite unlink_run. simpl. rewrite Hf, Hdir. unfold_monad.
    eexists; split; [reflexivity|]. simpl. by rewrite Hf.
  - rewrite bool_decide_eq_false_2 by (intros [? ?]; discriminate). unfold_monad.
    eexists; split; [reflexivity|]. simpl. by rewrite Hf, (delete_id _ _ Hdir).
Qed.

(** ** Loops *)

Lemma for_each_nil {A} (body : A → M unit) w : for_each [] body w = (Ok tt, w).
Proof. reflexivity. Qed.

Lemma for_each_cons {A} (body : A → M unit) x l w :
  for_each (x :: l) body w
  = match body x w with
    | (Ok _, w') => for_each l body w'
    | (Raise e, w') => (Raise e, w')
    end.
Proof. reflexivity. Qed.

(** A property of the world that every turn of a loop keeps is kept by the
    loop, however it ends. *)
Lemma for_each_invariant {A} (P : world → Prop) (body : A → M unit) l :
  (∀ x w, P w → P (snd (body x w))) →
  ∀ w, P w → P (snd (for_each l body w)).
Proof.
  intros Hbody. induction l as [|x l IH]; intros w Hw; [exact Hw|].
  rewrite for_each_cons. specialize (Hbody x w Hw).
  destruct (body x w) as [[[]|e] w']; simpl in *; auto.
Qed.

(** ** The listing of the directory *)

Lemma has_suffix_refl suffix : has_suffix suffix suffix = true.
Proof. destruct suffix; simpl; [reflexivity|]. by rewrite Ascii.eqb_refl, String.eqb_refl. Qed.

Lemma has_suffix_app suffix s : has_suffix suffix (s +:+ suffix) = true.
Proof.
  induction s as [|a s IH]; simpl (_ +:+ _); [apply has_suffix_refl|].
  simpl. rewrite IH. apply orb_true_r.
Qed.

Lemma cache_file_path_suffix key : has_suffix ".cache" (_get_cache_file_path key) = true.
Proof. apply has_suffix_app. Qed.

Lemma glob_names_NoDup {A} (d : gmap string A) (p : string → bool) :
  NoDup (List.filter p (map_to_list d).*1).
Proof.
  apply NoDup_ListNoDup, List.NoDup_filter, NoDup_ListNoDup, NoDup_fst_map_to_list.
Qed.

Lemma elem_of_glob_names {A} (d : gmap string A) (p : string → bool) name :
  name ∈ List.filter p (map_to_list d).*1 ↔ p name = true ∧ is_Some (d !! name).
Proof.
  rewrite list_elem_of_In, filter_In, <- list_elem_of_In, list_elem_of_fmap.
  split.
  - intros [([n x] & -> & Hin) Hp]. split; [exact Hp|].
    apply elem_of_map_to_list in Hin. eauto.
  - intros [Hp [x Hx]]. split; [|exact Hp].
    exists (name, x). split; [reflexivity|]. by apply elem_of_map_to_list.
Qed.

(** ** [clear] *)

Lemma unlink_all l : ∀ w,
  faults w = [] → NoDup l → (∀ n, n ∈ l → is_Some (cache_dir w !! n)) →
  ∃ w', for_each l unlink w = (Ok tt, w')
        ∧ memory_cache w' = memory_cache w
        ∧ faults w' = []
        ∧ (∀ n, n ∈ l → cache_dir w' !! n = None)
        ∧ (∀ n, n ∉ l → cache_dir w' !! n = cache_dir w !! n).
Proof.
  induction l as [|x l IH]; intros w Hf Hnd Hin.
  - exists w. rewrite for_each_nil. repeat split; auto. intros n Hn. by apply elem_of_nil in Hn.
  - apply NoDup_cons in Hnd as [Hx Hnd].
    rewrite for_each_cons, unlink_run, Hf. simpl.
    destruct (Hin x) as [f Hfile]; [apply elem_of_cons; by left|]. rewrite Hfile.
    destruct (IH (set_cache_dir (delete x) (io_done w))) as (w' & -> & Hm & Hf' & Hgone & Hkept).
    + simpl. by rewrite Hf.
    + exact Hnd.
    + intros n Hn. simpl. rewrite lookup_delete_ne by (intros ->; contradiction).
      apply Hin, elem_of_cons. by right.
    + exists w'. split; [reflexivity|]. split; [exact Hm|]. split; [exact Hf'|]. split.
      * intros n [-> | Hn]%elem_of_cons; [|by apply Hgone].
        rewrite (Hkept x Hx). simpl. apply lookup_delete_eq.
      * intros n Hn. rewrite not_elem_of_cons in Hn. destruct Hn as [Hne Hn].
        rewrite (Hkept n Hn). simpl. by apply lookup_delete_ne.
Qed.

Lemma clear_fault_free w :
  faults w = [] →
  ∃ w', clear w = (Ok tt, w')
        ∧ memory_cache w' = ∅
        ∧ faults w' = []
        ∧ (∀ name, has_suffix ".cache" name = true → cache_dir w' !! name = None)
        ∧ (∀ name, has_suffix ".cache" name = false →
             cache_dir w' !! name = cache_dir w !! name).
Proof.
  intros Hf. unfold clear; unfold_monad. rewrite glob_cache_run. simpl. rewrite Hf. simpl.
  set (names := List.filter (has_suffix ".cache") (map_to_list (cache_dir w)).*1).
  destruct (unlink_all names (io_done (set_memory_cache (λ _, ∅) w)))
    as (w' & -> & Hm & Hf' & Hgone & Hkept).
  - simpl. by rewrite Hf.
  - apply glob_names_NoDup.
  - intros n Hn. simpl. by apply elem_of_glob_names in Hn as [_ ?].
  - eexists; split; [reflexivity|]. simpl. split; [exact Hm|]. split; [exact Hf'|]. split.
    + intros name Hsuffix.
      destruct (cache_dir w !! name) as [f|] eqn:Hfile.
      * apply Hgone, elem_of_glob_names. eauto.
      * rewrite Hkept; [exact Hfile|].
        intros [_ [? ?]]%elem_of_glob_names. congruence.
    + intros name Hsuffix. rewrite Hkept; [reflexivity|].
      intros [? _]%elem_of_glob_names. congruence.
Qed.

(** ** [cleanup] *)

Lemma cleanup_memory_step_entry max_age key w e :
  memory_cache w !! key = Some (py_of_entry e) →
  cleanup_memory_step max_age key w
  = (Ok tt,
     if valid_at e max_age (clock w) then checked max_age w
     else set_memory_cache (delete key) (checked max_age w)).
Proof.
  intros Hmem. unfold cleanup_memory_step; unfold_monad.
  rewrite Hmem, is_cache_valid_entry.
  destruct (valid_at e max_age (clock w)); reflexivity.
Qed.

Lemma Forall_readings_clock (P : datetime → Prop) w :
  Forall P (readings w) → P (clock w).
Proof. rewrite Forall_forall. intros H. apply H, clock_in_readings. Qed.

Lemma py_of_entry_inj e1 e2 : py_of_entry e1 = py_of_entry e2 → e1 = e2.
Proof.
  destruct e1 as [t1 [q1|] d1], e2 as [t2 [q2|] d2]; unfold py_of_entry; simpl;
    intros H; injection H; intros; subst; try reflexivity; discriminate.
Qed.

(** The sweep of the memory tier over a list of distinct keys that all
    hold entries. *)
Lemma memory_sweep max_age l : ∀ w,
  NoDup l →
  (∀ key, key ∈ l → ∃ e, memory_cache w !! key = Some (py_of_entry e)) →
  ∃ w', for_each l (cleanup_memory_step max_age) w = (Ok tt, w')
        ∧ cache_dir w' = cache_dir w
        ∧ faults w' = faults w
        ∧ (∀ t, t ∈ readings w' → t ∈ readings w)
        ∧ (∀ key, key ∉ l → memory_cache w' !! key = memory_cache w !! key)
        ∧ (∀ key e, key ∈ l → memory_cache w !! key = Some (py_of_entry e) →
             (Forall (fun t => valid_at e max_age t = false) (readings w) →
              memory_cache w' !! key = None)
             ∧ (Forall (fun t => valid_at e max_age t = true) (readings w) →
                memory_cache w' !! key = Some (py_of_entry e))).
Proof.
  induction l as [|k l IH]; intros w Hnd Hentries.
  - exists w. rewrite for_each_nil. repeat split; auto;
      intros; exfalso; eapply not_elem_of_nil; eauto.
  - apply NoDup_cons in Hnd as [Hk Hnd].
    destruct (Hentries k) as [ek Hek]; [apply elem_of_cons; by left|].
    rewrite for_each_cons, (cleanup_memory_step_entry _ _ _ _ Hek).
    set (w1 := if valid_at ek max_age (clock w) then checked max_age w
               else set_memory_cache (delete k) (checked max_age w)).
    assert (Hdir1 : cache_dir w1 = cache_dir w).
    { subst w1. destruct (valid_at _ _ _); simpl; apply checked_cache_dir. }
    assert (Hf1 : faults w1 = faults w).
    { subst w1. destruct (valid_at _ _ _); simpl; apply checked_faults. }
    assert (Hr1 : ∀ t, t ∈ readings w1 → t ∈ readings w).
    { subst w1. destruct (valid_at _ _ _); simpl; apply readings_checked. }
    assert (Hother : ∀ key, key ≠ k → memory_cache w1 !! key = memory_cache w !! key).
    { intros key Hne. subst w1. destruct (valid_at _ _ _); simpl;
        rewrite ?lookup_delete_ne by done; by rewrite checked_memory. }
    destruct (IH w1 Hnd) as (w' & -> & Hdir & Hf & Hr & Hout & Hin).
    { intros key Hkey. rewrite Hother by (intros ->; contradiction).
      apply Hentries, elem_of_cons. by right. }
    exists w'. split; [reflexivity|]. split; [congruence|]. split; [congruence|].
    split; [auto|]. split.
    + intros key [Hne Hkey]%not_elem_of_cons. rewrite Hout by done. by apply Hother.
    + intros key e [-> | Hkey]%elem_of_cons Hmem.
      * assert (ek = e) as -> by (apply py_of_entry_inj; congruence).
        rewrite (Hout k Hk). subst w1. split; intros Hall.
        -- apply Forall_readings_clock in Hall. rewrite Hall. simpl.
           apply lookup_delete_eq.
        -- apply Forall_readings_clock in Hall. rewrite Hall.
           by rewrite checked_memory.
      * assert (key ≠ k) as Hne by (intros ->; contradiction).
        destruct (Hin key e Hkey) as [Hgone Hkept]; [by rewrite Hother|].
        split; intros Hall; [apply Hgone | apply Hkept];
          rewrite Forall_forall in *; auto.
Qed.

Lemma cleanup_disk_step_entry max_age name w e :
  faults w = [] →
  cache_dir w !! name = Some (Json (py_of_entry e)) →
  cleanup_disk_step max_age name w
  = (Ok tt,
     if valid_at e max_age (clock w) then checked max_age w
     else set_cache_dir (delete name) (checked max_age w)).
Proof.
  intros Hf Hfile. unfold cleanup_disk_step; unfold_monad.
  rewrite (read_cache_file_fault_free _ _ Hf), Hfile. simpl.
  rewrite is_cache_valid_entry.
  destruct (valid_at e max_age (clock w)); [reflexivity|].
  rewrite unlink_run, checked_faults, checked_cache_dir, Hf, Hfile. simpl.
  rewrite io_done_fault_free; [reflexivity|]. by rewrite checked_faults.
Qed.

Lemma cleanup_disk_step_undecodable max_age name w :
  faults w = [] →
  cache_dir w !! name = Some Undecodable →
  cleanup_disk_step max_age name w
  = (Ok tt, set_log (cons (ERROR "Error reading cache file" JSONDecodeError)) w).
Proof.
  intros Hf Hfile. unfold cleanup_disk_step; unfold_monad.
  by rewrite (read_cache_file_fault_free _ _ Hf), Hfile.
Qed.

(** The sweep of the files over a list of distinct names that all hold
    entries or text that does not decode, when no filesystem call fails. *)
Lemma disk_sweep max_age l : ∀ w,
  faults w = [] →
  NoDup l →
  (∀ name, name ∈ l →
     cache_dir w !! name = Some Undecodable
     ∨ ∃ e, cache_dir w !! name = Some (Json (py_of_entry e))) →
  ∃ w', for_each l (cleanup_disk_step max_age) w = (Ok tt, w')
        ∧ memory_cache w' = memory_cache w
        ∧ faults w' = []
        ∧ (∀ name, name ∉ l → cache_dir w' !! name = cache_dir w !! name)
        ∧ (∀ name, name ∈ l → cache_dir w !! name = Some Undecodable →
             cache_dir w' !! name = Some Undecodable)
        ∧ (∀ name e, name ∈ l → cache_dir w !! name = Some (Json (py_of_entry e)) →
             (Forall (fun t => valid_at e max_age t = false) (readings w) →
              cache_dir w' !! name = None)
             ∧ (Forall (fun t => valid_at e max_age t = true) (readings w) →
                cache_dir w' !! name = Some (Json (py_of_entry e)))).
Proof.
  induction l as [|n l IH]; intros w Hfree Hnd Hfiles.
  - exists w. rewrite for_each_nil. repeat split; auto;
      intros; exfalso; eapply not_elem_of_nil; eauto.
  - apply NoDup_cons in Hnd as [Hn Hnd].
    assert (∃ w1, cleanup_disk_step max_age n w = (Ok tt, w1)
                  ∧ memory_cache w1 = memory_cache w
                  ∧ faults w1 = []
                  ∧ (∀ t, t ∈ readings w1 → t ∈ readings w)
                  ∧ (∀ name, name ≠ n → cache_dir w1 !! name = cache_dir w !! name)
                  ∧ (cache_dir w !! n = Some Undecodable →
                     cache_dir w1 !! n = Some Undecodable)
                  ∧ (∀ e, cache_dir w !! n = Some (Json (py_of_entry e)) →
                       cache_dir w1 !! n
                       = if valid_at e max_age (clock w)
                         then Some (Json (py_of_entry e)) else None))
      as (w1 & Hstep & Hm1 & Hf1 & Hr1 & Hother & Hund & Hent).
    { destruct (Hfiles n) as [Hfile | [e Hfile]]; [apply elem_of_cons; by left|..].
      - rewrite (cleanup_disk_step_undecodable _ _ _ Hfree Hfile).
        eexists; split; [reflexivity|]. simpl. split_and!; try done.
        intros e He. congruence.
      - rewrite (cleanup_disk_step_entry _ _ _ _ Hfree Hfile).
        eexists; split; [reflexivity|].
        destruct (valid_at e max_age (clock w)) eqn:Hv; simpl;
          rewrite ?checked_memory, ?checked_faults, ?checked_cache_dir.
        + split_and!; try done.
          * apply readings_checked.
          * intros e' He'. assert (e' = e) as -> by (apply py_of_entry_inj; congruence).
            by rewrite Hv.
        + split_and!; try done.
          * apply readings_checked.
          * intros name Hne. by rewrite lookup_delete_ne.
          * congruence.
          * intros e' He'. assert (e' = e) as -> by (apply py_of_entry_inj; congruence).
            rewrite Hv. apply lookup_delete_eq. }
    rewrite for_each_cons, Hstep.
    destruct (IH w1 Hf1 Hnd) as (w' & -> & Hm & Hf & Hout & Hkeep & Hin).
    { intros name Hname. rewrite Hother by (intros ->; contradiction).
      apply Hfiles, elem_of_cons. by right. }
    exists w'. split; [reflexivity|]. split; [congruence|]. split; [exact Hf|].
    split; [|split].
    + intros name [Hne Hname]%not_elem_of_cons. rewrite Hout by done. by apply Hother.
    + intros name [-> | Hname]%elem_of_cons Hfile.
      * rewrite (Hout n Hn). by apply Hund.
      * apply Hkeep; [done|]. rewrite Hother; [done|]. intros ->; contradiction.
    + intros name e [-> | Hname]%elem_of_cons Hfile.
      * rewrite (Hout n Hn), (Hent e Hfile).
        split; intros Hall; apply Forall_readings_clock in Hall; by rewrite Hall.
      * assert (name ≠ n) as Hne by (intros ->; contradiction).
        destruct (Hin name e Hname) as [Hgone Hkept]; [by rewrite Hother|].
        split; intros Hall; [apply Hgone | apply Hkept];
          rewrite Forall_forall in *; auto.
Qed.

(** [cleanup] on a store of entries, when no filesystem call fails: an
    entry that is expired at every reading of the clock during the sweep
    is removed, one that is valid at every reading stays, and nothing else
    changes, in both tiers. *)
Lemma cleanup_fault_free max_age w :
  faults w = [] →
  entries_only w →
  ∃ w', cleanup max_age w = (Ok tt, w')
        ∧ faults w' = []
        ∧ (∀ key e, memory_cache w !! key = Some (py_of_entry e) →
             (Forall (fun t => valid_at e max_age t = false) (readings w) →
              memory_cache w' !! key = None)
             ∧ (Forall (fun t => valid_at e max_age t = true) (readings w) →
                memory_cache w' !! key = Some (py_of_entry e)))
        ∧ (∀ key, memory_cache w !! key = None → memory_cache w' !! key = None)
        ∧ (∀ name e, has_suffix ".cache" name = true →
             cache_dir w !! name = Some (Json (py_of_entry e)) →
             (Forall (fun t => valid_at e max_age t = false) (readings w) →
              cache_dir w' !! name = None)
             ∧ (Forall (fun t => valid_at e max_age t = true) (readings w) →
                cache_dir w' !! name = Some (Json (py_of_entry e))))
        ∧ (∀ name, has_suffix ".cache" name = false
                   ∨ cache_dir w !! name = None
                   ∨ cache_dir w !! name = Some Undecodable →
             cache_dir w' !! name = cache_dir w !! name).
Proof.
  intros Hfree [Hmem_entries Hdir_entries]. unfold cleanup; unfold_monad.
  destruct (memory_sweep max_age (map_to_list (memory_cache w)).*1 w)
    as (w1 & -> & Hdir1 & Hf1 & Hr1 & Hout1 & Hin1).
  { apply NoDup_fst_map_to_list. }
  { intros key ([k v] & -> & Hkv)%list_elem_of_fmap.
    apply elem_of_map_to_list in Hkv. simpl.
    destruct (Hmem_entries k v Hkv) as [e ->]. eauto. }
  rewrite glob_cache_run, Hf1, Hfree, Hdir1. simpl.
  set (names := List.filter (has_suffix ".cache") (map_to_list (cache_dir w)).*1).
  assert (Hfree1 : faults (io_done w1) = []) by (simpl; by rewrite Hf1, Hfree).
  destruct (disk_sweep max_age names (io_done w1) Hfree1)
    as (w' & -> & Hm & Hf & Hout & Hkeep & Hin).
  { apply glob_names_NoDup. }
  { intros name [Hsuffix [f Hfile]]%elem_of_glob_names. simpl. rewrite Hdir1, Hfile.
    destruct f as [|doc]; [by left|]. right.
    destruct (Hdir_entries name doc Hsuffix Hfile) as [e ->]. eauto. }
  simpl in Hm, Hout, Hkeep, Hin. rewrite Hdir1 in Hout, Hkeep, Hin.
  eexists; split; [reflexivity|]. simpl. split; [exact Hf|].
  assert (Hkey_in : ∀ key v, memory_cache w !! key = Some v →
                             key ∈ (map_to_list (memory_cache w)).*1).
  { intros key v Hv. apply list_elem_of_fmap. exists (key, v). split; [done|].
    by apply elem_of_map_to_list. }
  split; [|split; [|split]].
  - intros key e Hkey. rewrite Hm. apply Hin1; eauto.
  - intros key Hkey. rewrite Hm, Hout1; [done|].
    intros ([k v] & -> & Hkv)%list_elem_of_fmap.
    apply elem_of_map_to_list in Hkv. simpl in Hkey. congruence.
  - intros name e Hsuffix Hfile.
    destruct (Hin name e) as [Hgone Hkept]; [apply elem_of_glob_names; eauto | done |].
    split; intros Hall; [apply Hgone | apply Hkept];
      rewrite Forall_forall in *; intros t Ht; apply Hall, Hr1; exact Ht.
  - intros name Hname.
    destruct (decide (name ∈ names)) as [Hin_names | Hnot]; [|by apply Hout].
    apply elem_of_glob_names in Hin_names as Hfacts. destruct Hfacts as [Hsuffix [f Hfile]].
    destruct Hname as [? | [? | Hund]]; [congruence | congruence |].
    rewrite Hund. by apply Hkeep.
Qed.

(** ** What survives a failure *)

Section Preservation.

Variable P : world → Prop.

Lemma preserves_ret {A} (a : A) : preserves P (ret a).
Proof. intros w Hw. exact Hw. Qed.

Lemma preserves_raise {A} e : preserves P (raise (A := A) e).
Proof. intros w Hw. exact Hw. Qed.

Lemma preserves_gets {A} (f : world → A) : preserves P (gets f).
Proof. intros w Hw. exact Hw. Qed.

Lemma preserves_modify f : (∀ w, P w → P (f w)) → preserves P (modify f).
Proof. intros Hf w Hw. by apply Hf. Qed.

Lemma preserves_bind {A B} (m : M A) (k : A → M B) :
  preserves P m → (∀ a, preserves P (k a)) → preserves P (bind m k).
Proof.
  intros Hm Hk w Hw. unfold bind. specialize (Hm w Hw).
  destruct (m w) as [[a|e] w']; simpl in *; [by apply Hk | done].
Qed.

Lemma preserves_try_except {A} (body : M A) (handler : exn → M A) :
  preserves P body → (∀ e, preserves P (handler e)) → preserves P (try_except body handler).
Proof.
  intros Hbody Hhandler w Hw. unfold try_except. specialize (Hbody w Hw).
  destruct (body w) as [[a|e] w']; simpl in *; [done | by apply Hhandler].
Qed.

Lemma preserves_for_each {A} (body : A → M unit) l :
  (∀ x, preserves P (body x)) → preserves P (for_each l body).
Proof. intros Hbody w Hw. apply for_each_invariant; [|exact Hw]. intros x. apply Hbody. Qed.

End Preservation.

(** Properties that only look at the two tiers and that deleting a file
    keeps: every step of a method other than a write to a tier keeps
    them. *)
Section TierProperties.

Variable P : world → Prop.
Hypothesis P_tiers : ∀ w w',
  memory_cache w' = memory_cache w → cache_dir w' = cache_dir w → P w → P w'.
Hypothesis P_delete_file : ∀ name w, P w → P (set_cache_dir (delete name) w).

Lemma preserves_logger_info msg : preserves P (logger_info msg).
Proof. apply preserves_modify. intros w. by apply P_tiers. Qed.

Lemma preserves_logger_error msg e : preserves P (logger_error msg e).
Proof. apply preserves_modify. intros w. by apply P_tiers. Qed.

Lemma preserves_is_cache_valid v max_age : preserves P (_is_cache_valid v max_age).
Proof.
  intros w Hw. destruct (is_cache_valid_frame v max_age w) as [-> | ->]; [done|].
  by apply (P_tiers w).
Qed.

Lemma preserves_path_exists name : preserves P (path_exists name).
Proof. intros w Hw. rewrite path_exists_run. by apply (P_tiers w). Qed.

Lemma preserves_glob_cache : preserves P glob_cache.
Proof. intros w Hw. rewrite glob_cache_run. by apply (P_tiers w). Qed.

Lemma preserves_read_cache_file name : preserves P (_read_cache_file name).
Proof.
  intros w Hw. destruct (read_cache_file_run name w) as (new & -> & _).
  by apply (P_tiers w).
Qed.

Lemma preserves_unlink name : preserves P (unlink name).
Proof.
  intros w Hw. rewrite unlink_run.
  destruct (hd io_ok (faults w)), (cache_dir w !! name); simpl;
    try (by apply (P_tiers w)).
  apply P_delete_file. by apply (P_tiers w).
Qed.

(** What follows the memory write of [invalidate]. *)
Lemma preserves_invalidate_files key :
  preserves P (present <- path_exists (_get_cache_file_path key) ;;
               (if present then unlink (_get_cache_file_path key) else ret tt) ;;
               logger_info ("Cache invalidated for key: " +:+ key)).
Proof.
  apply preserves_bind; [apply preserves_path_exists|]. intros present.
  apply preserves_bind; [|intros; apply preserves_logger_info].
  destruct present; [apply preserves_unlink | apply preserves_ret].
Qed.

(** What follows the memory write of [clear]. *)
Lemma preserves_clear_files :
  preserves P (cache_files <- glob_cache ;;
               for_each cache_files unlink ;;
               logger_info "Cache cleared successfully").
Proof.
  apply preserves_bind; [apply preserves_glob_cache|]. intros names.
  apply preserves_bind; [|intros; apply preserves_logger_info].
  apply preserves_for_each, preserves_unlink.
Qed.

Lemma preserves_invalidate key :
  (∀ w, P w → P (set_memory_cache (delete key) w)) →
  preserves P (invalidate key).
Proof.
  intros Hdelete. unfold invalidate.
  apply preserves_try_except; [|intros; apply preserves_logger_error].
  apply preserves_bind; [apply preserves_modify, Hdelete|]. intros _.
  apply preserves_invalidate_files.
Qed.

Lemma preserves_clear :
  (∀ w, P w → P (set_memory_cache (fun _ => ∅) w)) →
  preserves P clear.
Proof.
  intros Hempty. unfold clear.
  apply preserves_try_except; [|intros; apply preserves_logger_error].
  apply preserves_bind; [apply preserves_modify, Hempty|]. intros _.
  apply preserves_clear_files.
Qed.

Lemma preserves_cleanup max_age :
  (∀ key w, P w → P (set_memory_cache (delete key) w)) →
  preserves P (cleanup max_age).
Proof.
  intros Hdelete. unfold cleanup.
  apply preserves_try_except; [|intros; apply preserves_logger_error].
  apply preserves_bind; [apply preserves_gets|]. intros mem.
  apply preserves_bind.
  { apply preserves_for_each. intros key. unfold cleanup_memory_step.
    apply preserves_bind; [apply preserves_gets|]. intros mem'.
    destruct (mem' !! key); [|apply preserves_raise].
    apply preserves_bind; [apply preserves_is_cache_valid|]. intros valid.
    destruct valid; [apply preserves_ret | apply preserves_modify, Hdelete]. }
  intros _. apply preserves_bind; [apply preserves_glob_cache|]. intros names.
  apply preserves_bind; [|intros; apply preserves_logger_info].
  apply preserves_for_each. intros name. unfold cleanup_disk_step.
  apply preserves_bind; [apply preserves_read_cache_file|]. intros cached_data.
  destruct (truthy cached_data); [|apply preserves_ret].
  apply preserves_bind; [apply preserves_is_cache_valid|]. intros valid.
  destruct valid; [apply preserves_ret | apply preserves_unlink].
Qed.

End TierProperties.

Section Shrinking.

Variable w0 : world.

Lemma shrunk_tiers w w' :
  memory_cache w' = memory_cache w → cache_dir w' = cache_dir w →
  shrunk w0 w → shrunk w0 w'.
Proof. unfold shrunk. by intros -> ->. Qed.

Lemma shrunk_delete_memory key w :
  shrunk w0 w → shrunk w0 (set_memory_cache (delete key) w).
Proof.
  intros [Hm Hd]. split; simpl; [|done].
  etrans; [apply delete_subseteq | done].
Qed.

Lemma shrunk_empty_memory w :
  shrunk w0 w → shrunk w0 (set_memory_cache (fun _ => ∅) w).
Proof. intros [Hm Hd]. split; simpl; [apply map_empty_subseteq | done]. Qed.

Lemma shrunk_delete_file name w :
  shrunk w0 w → shrunk w0 (set_cache_dir (delete name) w).
Proof.
  intros [Hm Hd]. split; simpl; [done|].
  etrans; [apply delete_subseteq | done].
Qed.

End Shrinking.

(** [invalidate], [clear] and [cleanup] add nothing to either tier,
    however they end. *)
Lemma invalidate_shrinks key w : shrunk w (snd (invalidate key w)).
Proof.
  apply (preserves_invalidate (shrunk w));
    [apply shrunk_tiers | apply shrunk_delete_file | apply shrunk_delete_memory | by split].
Qed.

Lemma clear_shrinks w : shrunk w (snd (clear w)).
Proof.
  apply (preserves_clear (shrunk w));
    [apply shrunk_tiers | apply shrunk_delete_file | apply shrunk_empty_memory | by split].
Qed.

Lemma cleanup_shrinks max_age w : shrunk w (snd (cleanup max_age w)).
Proof.
  apply (preserves_cleanup (shrunk w));
    [apply shrunk_tiers | apply shrunk_delete_file | | by split].
  intros key. apply shrunk_delete_memory.
Qed.






(** ** [get] and the log *)





(** ** [get] after [set] *)

(** Once only time has passed since [set], [get] returns the payload when
    the entry is valid as the clock reads, whatever the filesystem does. *)
Lemma get_after_set_valid key data lifetime max_age w w2 :
  same_store (snd (set key data lifetime w)) w2 →
  valid_at (entry_of (clock w) lifetime data) max_age (clock w2) = true →
  fst (get key max_age w2) = Ok data.
Proof.
  intros [Hmem2 _] Hvalid.
  destruct (set_run key data lifetime w) as (w1 & Hset & Hmem & _).
  rewrite Hset in Hmem2. simpl in Hmem2. rewrite cache_entry_of_entry in Hmem.
  assert (Hlook : memory_cache w2 !! key
                  = Some (py_of_entry (entry_of (clock w) lifetime data)))
    by (by rewrite Hmem2, Hmem, lookup_insert_eq).
  by rewrite (get_memory_hit key max_age w2 _ Hlook Hvalid).
Qed.

(** And it returns [None] when the entry is expired at every reading to
    come, provided the filesystem did not fail during the [set]: a write
    that could not start may have left an older record in the file. *)
Lemma get_after_set_expired key data lifetime max_age w w2 :
  faults w = [] →
  same_store (snd (set key data lifetime w)) w2 →
  Forall (fun t => valid_at (entry_of (clock w) lifetime data) max_age t = false)
         (readings w2) →
  fst (get key max_age w2) = Ok PNone.
Proof.
  intros Hfree [Hmem2 Hdir2] Hexpired.
  destruct (set_run key data lifetime w) as (w1 & Hset & Hmem & Hdir & _).
  rewrite Hset in Hmem2, Hdir2. simpl in Hmem2, Hdir2.
  rewrite cache_entry_of_entry in Hmem, Hdir.
  set (e := entry_of (clock w) lifetime data) in *.
  destruct (get_nothing key max_age w2) as (w3 & -> & _); [| |reflexivity].
  - right. exists e. split.
    + by rewrite Hmem2, Hmem, lookup_insert_eq.
    + by apply Forall_readings_clock in Hexpired.
  - unfold durable_miss. rewrite Hdir2, Hdir. unfold written. rewrite Hfree. cbn [hd].
    rewrite lookup_insert_eq. destruct (serialisable (py_of_entry e)); [|by right; left].
    right; right. exists e. split; [reflexivity | exact Hexpired].
Qed.

(** An entry stored without ttl, or with one of zero length, lives by the
    reader's non-zero [max_age]. *)
Lemma valid_at_entry_of_no_ttl now lifetime data M t :
  lifetime = None ∨ lifetime = Some 0 → M ≠ 0 →
  valid_at (entry_of now lifetime data) (Some M) t = (t - now <? M).
Proof.
  intros Hlifetime HM. apply timedelta_bool_true in HM.
  unfold valid_at. rewrite HM. by destruct Hlifetime as [-> | ->].
Qed.

(** Where the rule of the specification and the code agree: a non-zero
    [max_age], and no stored ttl of zero. *)
Lemma valid_at_spec_valid e M t :
  M ≠ 0 →
  (∀ q, ttl e = Some q → Qnum q ≠ 0) →
  valid_at e (Some M) t = spec_valid e (Some M) t.
Proof.
  intros HM Hq. apply timedelta_bool_true in HM.
  unfold valid_at, spec_valid. rewrite HM. simpl.
  destruct (ttl e) as [q|]; [|reflexivity].
  specialize (Hq q eq_refl). apply Z.eqb_neq in Hq. by rewrite Hq.
Qed.

(** ** Small worlds *)

Lemma entries_only_single w key e name e' :
  memory_cache w = {[key := py_of_entry e]} →
  cache_dir w = {[name := Json (py_of_entry e')]} →
  entries_only w.
Proof.
  intros Hmem Hdir. split.
  - intros k v. rewrite Hmem. intros [_ <-]%lookup_singleton_Some. eauto.
  - intros n doc _. rewrite Hdir. intros [_ [= <-]]%lookup_singleton_Some. eauto.
Qed.

Lemma valid_at_off e max_age t :
  match max_age with Some m => timedelta_bool m | None => false end = false →
  valid_at e max_age t = true.
Proof. unfold valid_at. destruct max_age as [m|]; [|done]. by intros ->. Qed.

Lemma aged_memory_cache : memory_cache aged = {["a" := py_of_entry aged_entry]}.
Proof. vm_cast_no_check (eq_refl (memory_cache aged)). Qed.

Lemma aged_cache_dir :
  cache_dir aged = {[_get_cache_file_path "a" := Json (py_of_entry aged_entry)]}.
Proof. vm_cast_no_check (eq_refl (cache_dir aged)). Qed.

Lemma aged_entries_only : entries_only aged.
Proof. exact (entries_only_single aged _ _ _ _ aged_memory_cache aged_cache_dir). Qed.

(* ===================================================================== *)
(** * The claims *)
(* ===================================================================== *)

(** ** C1: the validity rule *)

(** C1, as amended. For every entry, [_is_cache_valid] returns a boolean
    [b], and: with no [max_age], or with a [max_age] of zero length, the
    entry is valid; with a non-zero [max_age] and a stored ttl that is not
    zero, the entry is valid iff its age in seconds is below the ttl,
    whatever [max_age] is; with a non-zero [max_age] and no stored ttl (or a
    stored ttl of zero), the entry is valid iff its age is below [max_age]. *)
Theorem is_cache_valid_rule (e : entry) (max_age : option timedelta) (w : world) :
  ∃ b : bool,
    fst (_is_cache_valid (py_of_entry e) max_age w) = Ok b ∧
    let age := clock w - created_at e in
    match max_age with
    | None => b = true
    | Some m =>
        if decide (m = 0) then b = true
        else
          match ttl e with
          | Some q =>
              if Qeq_dec q 0 then b = true ↔ age < m
              else b = true ↔ (total_seconds age < q)%Q
          | None => b = true ↔ age < m
          end
    end.
Proof.
  rewrite is_cache_valid_entry. eexists; split; [reflexivity|].
  unfold valid_at. destruct max_age as [m|]; [|reflexivity].
  cbv zeta. destruct (decide (m = 0)) as [->|Hm]; [reflexivity|].
  apply timedelta_bool_true in Hm. rewrite Hm. cbn [negb].
  destruct (ttl e) as [q|]; [|apply Z.ltb_lt].
  destruct (Qeq_dec q 0) as [Hq|Hq]; unfold Qeq in Hq; simpl in Hq;
    rewrite Z.mul_1_r in Hq.
  - rewrite Hq. simpl. apply Z.ltb_lt.
  - apply Z.eqb_neq in Hq. change (0 * QDen q) with 0 in Hq.
    rewrite Hq. simpl. apply Qltb_lt.
Qed.

(** C1, as stated, fails: a [max_age] of zero length is supplied, the entry
    carries a ttl of one second and is two seconds old, so the rule of the
    specification calls it expired; [_is_cache_valid] answers [True]. *)
Lemma is_cache_valid_zero_max_age :
  fst (_is_cache_valid (py_of_entry aged_entry) (Some 0) aged) = Ok true
  ∧ clock aged - created_at aged_entry = 2000000
  ∧ ttl aged_entry = Some (total_seconds 1000000)
  ∧ spec_valid aged_entry (Some 0) (clock aged) = false.
Proof. vm_compute. done. Qed.

(** ** C2: [set] then [get] *)

(** C2. For every key and payload, and in every world, [set(k, v)]
    followed by [get(k)] without [max_age] returns [v]. *)
Theorem set_then_get (key : string) (data : pyval) (w : world) :
  fst ((set key data None ;; get key None) w) = Ok data.
Proof.
  unfold bind. destruct (set_run key data None w) as (w1 & -> & Hmem & _).
  assert (Hlook : memory_cache w1 !! key = Some (py_of_entry (entry_of (clock w) None data)))
    by (by rewrite Hmem, lookup_insert_eq).
  by rewrite (get_memory_hit key None w1 _ Hlook).
Qed.

(** ** C3: an entry's own ttl *)

(** C3, as amended. After [set(k, v, ttl=T)] with a non-zero [T], in a
    world where the filesystem does not fail during the [set], and for every
    non-zero [max_age]: once only time has passed, [get(k, max_age)] returns
    [v] when the clock reads less than [T] after the write, and [None] when
    every reading to come is at least [T] after the write. *)
Theorem ttl_governs (key : string) (data : pyval) (T M : timedelta) (w w2 : world) :
  T ≠ 0 → M ≠ 0 → faults w = [] →
  same_store (snd (set key data (Some T) w)) w2 →
  (clock w2 - clock w < T → fst (get key (Some M) w2) = Ok data)
  ∧ (Forall (fun t => T ≤ t - clock w) (readings w2) →
     fst (get key (Some M) w2) = Ok PNone).
Proof.
  intros HT HM Hfree Hsame. split; intros Hage.
  - apply (get_after_set_valid key data (Some T) (Some M) w w2 Hsame).
    rewrite valid_at_entry_of by done. by apply Z.ltb_lt.
  - apply (get_after_set_expired key data (Some T) (Some M) w w2 Hfree Hsame).
    eapply Forall_impl; [exact Hage|]. intros t Ht.
    rewrite valid_at_entry_of by done. by apply Z.ltb_ge.
Qed.

Lemma ttl_governs_witness :
  (2000000 ≠ 0 ∧ 5 ≠ 0 ∧ faults (empty_world 0) = [] ∧ same_store stored_ttl stored_ttl)
  ∧ (clock stored_ttl - clock (empty_world 0) < 2000000 →
     fst (get "a" (Some 5) stored_ttl) = Ok x1)
  ∧ (Forall (fun t => 2000000 ≤ t - clock (empty_world 0)) (readings stored_ttl) →
     fst (get "a" (Some 5) stored_ttl) = Ok PNone).
Proof.
  assert (H1 : 2000000 ≠ 0) by lia.
  assert (H2 : 5 ≠ 0) by lia.
  assert (H3 : faults (empty_world 0) = []) by reflexivity.
  assert (H4 : same_store stored_ttl stored_ttl) by (split; reflexivity).
  split; [by split_and! |].
  exact (ttl_governs "a" x1 2000000 5 (empty_world 0) stored_ttl H1 H2 H3 H4).
Defined.

(** C3, as stated, fails: the entry was stored with a ttl of two seconds,
    three seconds have passed, and [get] with a [max_age] of zero length
    still returns the payload. *)
Lemma ttl_ignored_with_zero_max_age :
  2000000 ≤ clock stale - clock (empty_world 0)
  ∧ fst (get "a" (Some 0) stale) = Ok x1
  ∧ x1 ≠ PNone.
Proof. vm_compute. split_and!; done. Qed.

(** ** C4: the scenario *)

(** The scenario for every [max_age], in a new process on an empty
    directory, whatever its clock reads: [set("a", {"x": 1}, ttl=2s)],
    [get("a")], three seconds of sleep, [get("a", max_age)],
    [cleanup(max_age)]. The first [get] returns [{"x": 1}]. On the path with
    a non-zero [max_age] the ttl is enforced: the second [get] returns
    [None] and the file of ["a"] is gone after the [cleanup]. On the path
    without [max_age] (or with one of zero length) it is not: the second
    [get] returns [{"x": 1}] again and the file of ["a"] is still there. *)
Lemma scenario_outcome (t0 : datetime) (max_age : option timedelta) :
  ∃ r2 w',
    scenario max_age (empty_world t0) = (Ok (x1, r2), w')
    ∧ if match max_age with Some m => timedelta_bool m | None => false end
      then r2 = PNone
           ∧ cache_dir w' !! _get_cache_file_path "a" = None
      else r2 = x1
           ∧ cache_dir w' !! _get_cache_file_path "a"
             = Some (Json (cache_entry_of t0 (Some 2000000) x1)).
Proof.
  unfold scenario. unfold bind.
  destruct (set_run "a" x1 (Some 2000000) (empty_world t0))
    as (w1 & -> & Hmem1 & Hdir1 & Hclock1 & Hlater1 & Hfaults1).
  change (written _ _) with (Some (Json (cache_entry_of t0 (Some 2000000) x1))) in Hdir1.
  change (memory_cache (empty_world t0)) with (∅ : gmap string pyval) in Hmem1.
  change (cache_dir (empty_world t0)) with (∅ : gmap string file) in Hdir1.
  change (clock (tick (empty_world t0))) with t0 in Hclock1.
  change (clock_later (tick (empty_world t0))) with (@nil datetime) in Hlater1.
  change (tail (faults (empty_world t0))) with (@nil io_outcome) in Hfaults1.
  rewrite cache_entry_of_entry in *.
  set (e := entry_of t0 (Some 2000000) x1) in *.
  assert (Hlook1 : memory_cache w1 !! "a" = Some (py_of_entry e))
    by (by rewrite Hmem1, lookup_insert_eq).
  rewrite (get_memory_hit "a" None w1 e Hlook1 eq_refl).
  unfold sleep, modify. cbn [checked].
  set (w2 := mkWorld _ _ _ _ _ _).
  assert (Hmem2 : memory_cache w2 = {["a" := py_of_entry e]}) by exact Hmem1.
  assert (Hdir2 : cache_dir w2 = {[_get_cache_file_path "a" := Json (py_of_entry e)]})
    by exact Hdir1.
  assert (Hfaults2 : faults w2 = []) by exact Hfaults1.
  assert (Hreadings2 : readings w2 = [t0 + 3000000]).
  { unfold readings, w2. simpl. by rewrite Hclock1, Hlater1. }
  assert (Hlook2 : memory_cache w2 !! "a" = Some (py_of_entry e))
    by (by rewrite Hmem2, lookup_singleton_eq).
  assert (Hfile2 : cache_dir w2 !! _get_cache_file_path "a" = Some (Json (py_of_entry e)))
    by (by rewrite Hdir2, lookup_singleton_eq).
  clearbody w2.
  destruct (match max_age with Some m => timedelta_bool m | None => false end) eqn:Hgiven.
  - destruct max_age as [m|]; [|discriminate].
    assert (Hexpired : Forall (fun t => valid_at e (Some m) t = false) (readings w2)).
    { rewrite Hreadings2. repeat constructor.
      unfold e. rewrite valid_at_entry_of; [apply Z.ltb_ge; lia | lia |].
      by apply timedelta_bool_true. }
    destruct (get_nothing "a" (Some m) w2) as (w3 & -> & [Hmem3 Hdir3] & Hfaults3 & Hreadings3).
    { right. exists e. split; [done|]. by apply Forall_readings_clock in Hexpired. }
    { right; right. by exists e. }
    destruct (cleanup_fault_free (Some m) w3) as (w4 & -> & _ & _ & _ & Hfiles & _).
    { by apply Hfaults3. }
    { apply (entries_only_single w3 "a" e (_get_cache_file_path "a") e); congruence. }
    do 2 eexists. split; [reflexivity|]. split; [reflexivity|].
    apply (Hfiles _ e (cache_file_path_suffix "a")); [congruence|].
    rewrite Forall_forall in *. auto.
  - rewrite (get_memory_hit "a" max_age w2 e Hlook2) by (by apply valid_at_off).
    destruct (cleanup_fault_free max_age
                (set_log (cons (INFO ("Cache hit (memory) for key: " +:+ "a")))
                         (checked max_age w2)))
      as (w4 & -> & _ & _ & _ & Hfiles & _).
    { simpl. by rewrite checked_faults. }
    { apply (entries_only_single _ "a" e (_get_cache_file_path "a") e); simpl;
        by rewrite ?checked_memory, ?checked_cache_dir. }
    do 2 eexists. split; [reflexivity|]. split; [reflexivity|].
    apply (Hfiles _ e (cache_file_path_suffix "a")).
    + unfold set_log. cbn [cache_dir]. by rewrite checked_cache_dir.
    + rewrite Forall_forall. intros t _. by apply valid_at_off.
Qed.

(** C4. The scenario as the specification states it, [get] and [cleanup]
    called without [max_age], run on an empty cache: three seconds after a
    [set] with a ttl of two seconds the second [get] returns [{"x": 1}],
    where the specification, and the docstrings of [get] ("None si no
    existe o expiró"), [set] ("ttl: Tiempo de vida del caché") and [cleanup]
    ("Limpia entradas de caché expiradas"), have the entry expired; and the
    file of ["a"] is still there after the [cleanup]. [_is_cache_valid]
    returns at [if not max_age] before it looks at the stored ttl, which
    the path with a [max_age] enforces. *)
Theorem scenario_without_max_age :
  fst (scenario None (empty_world 0)) = Ok (x1, x1)
  ∧ x1 ≠ PNone
  ∧ cache_dir (snd (scenario None (empty_world 0))) !! _get_cache_file_path "a"
    = Some (Json (cache_entry_of 0 (Some 2000000) x1)).
Proof.
  split; [|split].
  - vm_compute. reflexivity.
  - discriminate.
  - vm_compute. reflexivity.
Qed.

(** ** C5: [cleanup] *)

(** C5, as amended. For every [max_age], given or not, when no filesystem
    call fails and the two tiers hold entries only: [cleanup(max_age)]
    removes from the memory tier and from the [*.cache] files every entry
    that the validity check rejects at every reading of the clock during
    the sweep, keeps every entry that it accepts at every reading, adds
    nothing to the memory tier, and leaves every other file as it was. The
    check is [valid_at]: with no [max_age] or one of zero length nothing is
    rejected. *)
Theorem cleanup_removes_expired (max_age : option timedelta) (w : world) :
  faults w = [] →
  entries_only w →
  ∃ w', cleanup max_age w = (Ok tt, w')
        ∧ (∀ key e, memory_cache w !! key = Some (py_of_entry e) →
             (Forall (fun t => valid_at e max_age t = false) (readings w) →
              memory_cache w' !! key = None)
             ∧ (Forall (fun t => valid_at e max_age t = true) (readings w) →
                memory_cache w' !! key = Some (py_of_entry e)))
        ∧ (∀ key, memory_cache w !! key = None → memory_cache w' !! key = None)
        ∧ (∀ name e, has_suffix ".cache" name = true →
             cache_dir w !! name = Some (Json (py_of_entry e)) →
             (Forall (fun t => valid_at e max_age t = false) (readings w) →
              cache_dir w' !! name = None)
             ∧ (Forall (fun t => valid_at e max_age t = true) (readings w) →
                cache_dir w' !! name = Some (Json (py_of_entry e))))
        ∧ (∀ name, has_suffix ".cache" name = false
                   ∨ cache_dir w !! name = None
                   ∨ cache_dir w !! name = Some Undecodable →
             cache_dir w' !! name = cache_dir w !! name).
Proof.
  intros Hfree Hentries.
  destruct (cleanup_fault_free max_age w Hfree Hentries)
    as (w' & Hrun & _ & Hmem & Hnew & Hfiles & Hrest).
  exists w'. by split_and!.
Qed.

Lemma cleanup_removes_expired_witness :
  (faults aged = [] ∧ entries_only aged)
  ∧ ∃ w', cleanup (Some 5) aged = (Ok tt, w')
        ∧ (∀ key e, memory_cache aged !! key = Some (py_of_entry e) →
             (Forall (fun t => valid_at e (Some 5) t = false) (readings aged) →
              memory_cache w' !! key = None)
             ∧ (Forall (fun t => valid_at e (Some 5) t = true) (readings aged) →
                memory_cache w' !! key = Some (py_of_entry e)))
        ∧ (∀ key, memory_cache aged !! key = None → memory_cache w' !! key = None)
        ∧ (∀ name e, has_suffix ".cache" name = true →
             cache_dir aged !! name = Some (Json (py_of_entry e)) →
             (Forall (fun t => valid_at e (Some 5) t = false) (readings aged) →
              cache_dir w' !! name = None)
             ∧ (Forall (fun t => valid_at e (Some 5) t = true) (readings aged) →
                cache_dir w' !! name = Some (Json (py_of_entry e))))
        ∧ (∀ name, has_suffix ".cache" name = false
                   ∨ cache_dir aged !! name = None
                   ∨ cache_dir aged !! name = Some Undecodable →
             cache_dir w' !! name = cache_dir aged !! name).
Proof.
  assert (H1 : faults aged = []) by reflexivity.
  assert (H2 : entries_only aged) by exact aged_entries_only.
  split; [by split | exact (cleanup_removes_expired (Some 5) aged H1 H2)].
Defined.

(** C5, as stated, fails for a [max_age] of zero length: the entry of
    ["a"] carries a ttl of one second and is two seconds old, so it fails
    the rule of the specification, and [cleanup] leaves it in both tiers. *)
Lemma cleanup_zero_max_age_keeps_expired :
  spec_valid aged_entry (Some 0) (clock aged) = false
  ∧ memory_cache aged !! "a" = Some (py_of_entry aged_entry)
  ∧ cache_dir aged !! _get_cache_file_path "a" = Some (Json (py_of_entry aged_entry))
  ∧ memory_cache (snd (cleanup (Some 0) aged)) !! "a" = Some (py_of_entry aged_entry)
  ∧ cache_dir (snd (cleanup (Some 0) aged)) !! _get_cache_file_path "a"
    = Some (Json (py_of_entry aged_entry)).
Proof. vm_compute. split_and!; reflexivity. Qed.

(** ** C6: promotion from the durable tier *)

(** C6. When no filesystem call fails, a [get] that the memory tier gives
    nothing for (the key is not there, as in a process started anew, or its
    entry is found expired) and that finds on disk an entry valid at the
    readings of the clock returns that entry's payload, and the entry is in
    the memory tier when [get] returns; the file stays. *)
Theorem get_promotes (key : string) (max_age : option timedelta) (w : world) (e : entry) :
  faults w = [] →
  memory_miss key max_age w →
  cache_dir w !! _get_cache_file_path key = Some (Json (py_of_entry e)) →
  Forall (fun t => valid_at e max_age t = true) (readings w) →
  ∃ w', get key max_age w = (Ok (payload e), w')
        ∧ memory_cache w' !! key = Some (py_of_entry e)
        ∧ cache_dir w' = cache_dir w.
Proof.
  intros Hfree Hmiss Hfile Hvalid.
  destruct (get_disk_hit key max_age w e Hfree Hmiss Hfile Hvalid)
    as (w' & Hget & Hmem & Hdir & _).
  exists w'. split; [exact Hget|]. split; [|exact Hdir].
  rewrite Hmem. apply lookup_insert_eq.
Qed.

Lemma get_promotes_witness :
  (memory_cache restarted = ∅
   ∧ faults restarted = []
   ∧ memory_miss "a" None restarted
   ∧ cache_dir restarted !! _get_cache_file_path "a"
     = Some (Json (py_of_entry (entry_of 0 None x1)))
   ∧ Forall (fun t => valid_at (entry_of 0 None x1) None t = true) (readings restarted))
  ∧ ∃ w', get "a" None restarted = (Ok x1, w')
          ∧ memory_cache w' !! "a" = Some (py_of_entry (entry_of 0 None x1))
          ∧ cache_dir w' = cache_dir restarted.
Proof.
  assert (H0 : memory_cache restarted = ∅) by (vm_compute; reflexivity).
  assert (H1 : faults restarted = []) by (vm_compute; reflexivity).
  assert (H2 : memory_miss "a" None restarted) by (left; vm_compute; reflexivity).
  assert (H3 : cache_dir restarted !! _get_cache_file_path "a"
               = Some (Json (py_of_entry (entry_of 0 None x1))))
    by (vm_compute; reflexivity).
  assert (H4 : Forall (fun t => valid_at (entry_of 0 None x1) None t = true)
                      (readings restarted))
    by (repeat constructor).
  split; [by split_and! |].
  exact (get_promotes "a" None restarted (entry_of 0 None x1) H1 H2 H3 H4).
Defined.

(** ** C7: [invalidate] *)

(** C7. When no filesystem call fails, [invalidate(k)] returns without
    logging an error whether or not the key was in either tier, leaves the
    key in neither tier, and afterwards, once only time has passed, [get(k)]
    returns [None] for every [max_age]. *)
Theorem invalidate_then_get (key : string) (w : world) :
  faults w = [] →
  ∃ w1, invalidate key w = (Ok tt, w1)
        ∧ errors w1 = errors w
        ∧ memory_cache w1 !! key = None
        ∧ cache_dir w1 !! _get_cache_file_path key = None
        ∧ ∀ max_age w2, same_store w1 w2 → fst (get key max_age w2) = Ok PNone.
Proof.
  intros Hfree.
  destruct (invalidate_fault_free key w Hfree) as (w1 & Hrun & Hmem & Hdir & _ & Hlog).
  exists w1. split; [exact Hrun|].
  assert (Hgone_mem : memory_cache w1 !! key = None)
    by (rewrite Hmem; apply lookup_delete_eq).
  assert (Hgone_dir : cache_dir w1 !! _get_cache_file_path key = None)
    by (rewrite Hdir; apply lookup_delete_eq).
  split_and!; try done.
  - unfold errors. by rewrite Hlog.
  - intros max_age w2 [Hmem2 Hdir2].
    destruct (get_nothing key max_age w2) as (w3 & -> & _); [| |reflexivity].
    + left. by rewrite Hmem2.
    + left. by rewrite Hdir2.
Qed.

Lemma invalidate_then_get_witness :
  faults stored = []
  ∧ ∃ w1, invalidate "a" stored = (Ok tt, w1)
          ∧ errors w1 = errors stored
          ∧ memory_cache w1 !! "a" = None
          ∧ cache_dir w1 !! _get_cache_file_path "a" = None
          ∧ ∀ max_age w2, same_store w1 w2 → fst (get "a" max_age w2) = Ok PNone.
Proof.
  assert (H : faults stored = []) by reflexivity.
  split; [exact H | exact (invalidate_then_get "a" stored H)].
Defined.

(** ** C8: [clear] *)

(** C8. When no filesystem call fails, [clear()] empties the memory tier
    and leaves no [*.cache] file in the directory, expired or not; what
    else the directory holds stays; and afterwards, once only time has
    passed, [get(k)] returns [None] for every key and [max_age]. *)
Theorem clear_then_get (w : world) :
  faults w = [] →
  ∃ w1, clear w = (Ok tt, w1)
        ∧ memory_cache w1 = ∅
        ∧ (∀ name, has_suffix ".cache" name = true → cache_dir w1 !! name = None)
        ∧ (∀ name, has_suffix ".cache" name = false →
             cache_dir w1 !! name = cache_dir w !! name)
        ∧ ∀ key max_age w2, same_store w1 w2 → fst (get key max_age w2) = Ok PNone.
Proof.
  intros Hfree.
  destruct (clear_fault_free w Hfree) as (w1 & Hrun & Hmem & _ & Hgone & Hkept).
  exists w1. split_and!; try done.
  intros key max_age w2 [Hmem2 Hdir2].
  destruct (get_nothing key max_age w2) as (w3 & -> & _); [| |reflexivity].
  - left. by rewrite Hmem2, Hmem.
  - left. rewrite Hdir2. apply Hgone, cache_file_path_suffix.
Qed.

Lemma clear_then_get_witness :
  faults stored = []
  ∧ ∃ w1, clear stored = (Ok tt, w1)
          ∧ memory_cache w1 = ∅
          ∧ (∀ name, has_suffix ".cache" name = true → cache_dir w1 !! name = None)
          ∧ (∀ name, has_suffix ".cache" name = false →
               cache_dir w1 !! name = cache_dir stored !! name)
          ∧ ∀ key max_age w2, same_store w1 w2 → fst (get key max_age w2) = Ok PNone.
Proof.
  assert (H : faults stored = []) by reflexivity.
  split; [exact H | exact (clear_then_get stored H)].
Defined.

(** ** C9: nothing escapes *)

Lemma serialisable_cache_entry_of now lifetime data :
  serialisable (cache_entry_of now lifetime data) = serialisable data.
Proof.
  unfold cache_entry_of. destruct lifetime as [d|]; [destruct (timedelta_bool d)|];
    simpl; apply andb_true_r.
Qed.





(** ** C10: durations of zero length *)

(** C10. A [max_age] of zero length behaves as no [max_age]: the validity
    check accepts every value, and [get] and [cleanup] do exactly what they
    do without [max_age]. A ttl of zero length behaves as no ttl: [set]
    does exactly what it does without ttl, so that afterwards a non-zero
    [max_age] decides: once only time has passed, [get(k, max_age)] returns
    the payload when the clock reads less than [max_age] after the write,
    and [None] when every reading to come is at least [max_age] after it
    (the filesystem not having failed during the [set]). *)
Theorem zero_durations_count_as_absent
    (key : string) (data : pyval) (v : pyval) (w : world) :
  _is_cache_valid v (Some 0) w = (Ok true, w)
  ∧ get key (Some 0) w = get key None w
  ∧ cleanup (Some 0) w = cleanup None w
  ∧ set key data (Some 0) w = set key data None w
  ∧ ∀ (M : timedelta) (w2 : world),
      M ≠ 0 →
      same_store (snd (set key data (Some 0) w)) w2 →
      (clock w2 - clock w < M → fst (get key (Some M) w2) = Ok data)
      ∧ (faults w = [] →
         Forall (fun t => M ≤ t - clock w) (readings w2) →
         fst (get key (Some M) w2) = Ok PNone).
Proof.
  do 4 (split; [reflexivity|]).
  intros M w2 HM Hsame. split.
  - intros Hage.
    apply (get_after_set_valid key data (Some 0) (Some M) w w2 Hsame).
    rewrite valid_at_entry_of_no_ttl by auto. by apply Z.ltb_lt.
  - intros Hfree Hage.
    apply (get_after_set_expired key data (Some 0) (Some M) w w2 Hfree Hsame).
    eapply Forall_impl; [exact Hage|]. intros t Ht.
    rewrite valid_at_entry_of_no_ttl by auto. by apply Z.ltb_ge.
Qed.

(* ===================================================================== *)
(** * Further properties of [CacheManager] *)
(* ===================================================================== *)

(** ** What [get] changes *)

Lemma read_result_truthy name w :
  truthy (read_result name w) = true →
  cache_dir w !! name = Some (Json (read_result name w)).
Proof.
  unfold read_result.
  destruct (hd io_ok (faults w)); try discriminate.
  destruct (cache_dir w !! name) as [[|doc]|]; try discriminate. reflexivity.
Qed.

Lemma get_try_disk_effect key max_age w :
  cache_dir (snd (get_try_disk key max_age w)) = cache_dir w
  ∧ (memory_cache (snd (get_try_disk key max_age w)) = memory_cache w
     ∨ ∃ doc, cache_dir w !! _get_cache_file_path key = Some (Json doc)
              ∧ truthy doc = true
              ∧ memory_cache (snd (get_try_disk key max_age w))
                = <[key := doc]> (memory_cache w)).
Proof.
  unfold get_try_disk; unfold_monad. rewrite path_exists_run.
  destruct (hd io_ok (faults w)); simpl; try (split; [reflexivity | by left]).
  destruct (bool_decide _); simpl; try (split; [reflexivity | by left]).
  destruct (read_cache_file_run (_get_cache_file_path key) (io_done w)) as (new & -> & _).
  simpl.
  destruct (truthy (read_result _ (io_done w))) eqn:Htruthy; simpl;
    try (split; [reflexivity | by left]).
  apply read_result_truthy in Htruthy as Hfile. simpl in Hfile.
  match goal with |- context [_is_cache_valid ?v ?m ?w1] =>
    pose proof (is_cache_valid_frame v m w1) as Hframe;
    destruct (_is_cache_valid v m w1) as [[[]|] w2] end; simpl in *.
  - assert (memory_cache w2 = memory_cache w ∧ cache_dir w2 = cache_dir w) as [Hm Hd]
      by (destruct Hframe as [-> | ->]; by split).
    destruct (getitem _ "data"); simpl; (split; [exact Hd|]); right;
      eexists; (split; [exact Hfile|]); (split; [exact Htruthy|]); by rewrite Hm.
  - destruct Hframe as [-> | ->]; split; try reflexivity; by left.
  - destruct Hframe as [-> | ->]; split; try reflexivity; by left.
Qed.

Lemma get_try_effect key max_age w :
  cache_dir (snd (get_try key max_age w)) = cache_dir w
  ∧ (memory_cache (snd (get_try key max_age w)) = memory_cache w
     ∨ ∃ doc, cache_dir w !! _get_cache_file_path key = Some (Json doc)
              ∧ truthy doc = true
              ∧ memory_cache (snd (get_try key max_age w))
                = <[key := doc]> (memory_cache w)).
Proof.
  unfold get_try; unfold_monad.
  destruct (memory_cache w !! key) as [v|]; simpl; [|apply get_try_disk_effect].
  pose proof (is_cache_valid_frame v max_age w) as Hframe.
  destruct (_is_cache_valid v max_age w) as [[[]|] w1]; simpl in *.
  - destruct (getitem v "data"); simpl;
      destruct Hframe as [-> | ->]; split; try reflexivity; by left.
  - destruct (get_try_disk_effect key max_age w1) as [Hd Hm].
    destruct Hframe as [-> | ->]; (split; [exact Hd | exact Hm]).
  - destruct Hframe as [-> | ->]; split; try reflexivity; by left.
Qed.

Lemma get_effect key max_age w :
  cache_dir (snd (get key max_age w)) = cache_dir w
  ∧ (memory_cache (snd (get key max_age w)) = memory_cache w
     ∨ ∃ doc, cache_dir w !! _get_cache_file_path key = Some (Json doc)
              ∧ memory_cache (snd (get key max_age w)) = <[key := doc]> (memory_cache w)).
Proof.
  destruct (get_try_effect key max_age w) as [Hd Hm].
  unfold get; unfold_monad.
  destruct (get_try key max_age w) as [[[d|]|e] w']; simpl in *;
    (split; [exact Hd|]);
    (destruct Hm as [Hm | (doc & Hfile & _ & Hm)]; [by left | right; by exists doc]).
Qed.

(** X1. [get] only reads the directory: in every world, whatever fails, it
    leaves every file as it was; in the memory tier it changes at most its
    own key, and only by putting there the document it read from the key's
    file; it removes nothing, not even an entry it found expired. *)
Theorem get_only_promotes (key : string) (max_age : option timedelta) (w : world) :
  cache_dir (snd (get key max_age w)) = cache_dir w
  ∧ (memory_cache (snd (get key max_age w)) = memory_cache w
     ∨ ∃ doc, cache_dir w !! _get_cache_file_path key = Some (Json doc)
              ∧ memory_cache (snd (get key max_age w)) = <[key := doc]> (memory_cache w))
  ∧ ∀ other, other ≠ key →
      memory_cache (snd (get key max_age w)) !! other = memory_cache w !! other.
Proof.
  destruct (get_effect key max_age w) as [Hd Hm]. split; [exact Hd|]. split; [exact Hm|].
  intros other Hne. destruct Hm as [-> | (doc & _ & ->)]; [reflexivity|].
  by apply lookup_insert_ne.
Qed.

(** ** The store stays well formed *)

Lemma entries_only_shrunk w w' : shrunk w w' → entries_only w → entries_only w'.
Proof.
  intros [Hm Hd] [Hmem Hdir]. split.
  - intros key v Hv. apply (Hmem key). by eapply lookup_weaken.
  - intros name doc Hsuffix Hdoc. apply (Hdir name); [done|]. by eapply lookup_weaken.
Qed.

Lemma entries_only_set key data lifetime w :
  entries_only w → entries_only (snd (set key data lifetime w)).
Proof.
  intros [Hmem Hdir].
  destruct (set_run key data lifetime w) as (w' & -> & Hm & Hd & _). simpl.
  rewrite cache_entry_of_entry in Hm, Hd. split.
  - intros k v. rewrite Hm. intros [[_ <-] | [_ Hv]]%lookup_insert_Some; eauto.
  - intros name doc Hsuffix. rewrite Hd. unfold written.
    destruct (hd io_ok (faults w)); [destruct (serialisable _)|..];
      try (intros [[_ [= <-]] | [_ Hdoc]]%lookup_insert_Some; by eauto);
      try (intros [[_ [=]] | [_ Hdoc]]%lookup_insert_Some; by eauto).
    by eauto.
Qed.

Lemma entries_only_get key max_age w :
  entries_only w → entries_only (snd (get key max_age w)).
Proof.
  intros [Hmem Hdir]. destruct (get_effect key max_age w) as [Hd Hm]. split.
  - intros k v. destruct Hm as [-> | (doc & Hfile & ->)]; [apply Hmem|].
    intros [[_ <-] | [_ Hv]]%lookup_insert_Some; [|by eauto].
    apply (Hdir (_get_cache_file_path key)); [apply cache_file_path_suffix | exact Hfile].
  - intros name doc Hsuffix. rewrite Hd. by apply Hdir.
Qed.

(** X2. The methods keep the store well formed: when every value of the
    memory tier and every decodable [*.cache] file is an entry, this is
    still so after [get], [set], [invalidate], [clear] and [cleanup], in
    every world and whatever fails (a write that fails leaves text that
    does not decode, never a document that is no entry). *)
Theorem entries_only_kept
    (key : string) (data : pyval) (lifetime max_age : option timedelta) (w : world) :
  entries_only w →
  entries_only (snd (get key max_age w))
  ∧ entries_only (snd (set key data lifetime w))
  ∧ entries_only (snd (invalidate key w))
  ∧ entries_only (snd (clear w))
  ∧ entries_only (snd (cleanup max_age w)).
Proof.
  intros Hw. split_and!.
  - by apply entries_only_get.
  - by apply entries_only_set.
  - eapply entries_only_shrunk; [apply invalidate_shrinks | exact Hw].
  - eapply entries_only_shrunk; [apply clear_shrinks | exact Hw].
  - eapply entries_only_shrunk; [apply cleanup_shrinks | exact Hw].
Qed.

Lemma entries_only_kept_witness :
  entries_only aged
  ∧ entries_only (snd (get "a" (Some 5) aged))
  ∧ entries_only (snd (set "a" (PObject 0) None aged))
  ∧ entries_only (snd (invalidate "a" aged))
  ∧ entries_only (snd (clear aged))
  ∧ entries_only (snd (cleanup (Some 5) aged)).
Proof.
  split; [exact aged_entries_only|].
  exact (entries_only_kept "a" (PObject 0) None (Some 5) aged aged_entries_only).
Defined.

(** ** [cleanup] without an age bound *)

Lemma same_store_tiers w0 w w' :
  memory_cache w' = memory_cache w → cache_dir w' = cache_dir w →
  same_store w0 w → same_store w0 w'.
Proof. unfold same_store. by intros -> ->. Qed.

Lemma cleanup_memory_step_idle key w : snd (cleanup_memory_step None key w) = w.
Proof.
  unfold cleanup_memory_step; unfold_monad. by destruct (memory_cache w !! key).
Qed.

Lemma cleanup_disk_step_idle w0 name :
  preserves (same_store w0) (cleanup_disk_step None name).
Proof.
  intros w Hw. unfold cleanup_disk_step; unfold_monad.
  destruct (read_cache_file_run name w) as (new & -> & _).
  destruct (truthy (read_result name w)); simpl; by apply (same_store_tiers w0 w).
Qed.

(** X3. [cleanup] called without [max_age], or with one of zero length,
    removes nothing: in every world, whatever the two tiers hold and
    whatever fails, both tiers are afterwards exactly what they were. *)
Theorem cleanup_without_max_age_is_idle (w : world) :
  same_store w (snd (cleanup None w)) ∧ same_store w (snd (cleanup (Some 0) w)).
Proof.
  assert (Hidle : same_store w (snd (cleanup None w))).
  { apply (preserves_try_except (same_store w)); [| |by split].
    - apply preserves_bind; [apply preserves_gets|]. intros mem.
      apply preserves_bind.
      { apply preserves_for_each. intros key w' Hw'. by rewrite cleanup_memory_step_idle. }
      intros _. apply preserves_bind.
      { apply preserves_glob_cache, same_store_tiers. }
      intros names. apply preserves_bind.
      { apply preserves_for_each, cleanup_disk_step_idle. }
      intros _. apply preserves_logger_info, same_store_tiers.
    - intros e. apply preserves_logger_error, same_store_tiers. }
  split; [exact Hidle|].
  change (cleanup (Some 0) w) with (cleanup None w). exact Hidle.
Qed.

(** ** Documents that are no entries *)

Lemma is_cache_valid_unstamped v M e w :
  timedelta_bool M = true →
  getitem v "timestamp" = Raise e →
  _is_cache_valid v (Some M) w = (Raise e, w).
Proof.
  intros HM Hstamp. unfold _is_cache_valid. rewrite HM. unfold_monad. by rewrite Hstamp.
Qed.

Lemma cleanup_memory_step_frame max_age key w :
  cache_dir (snd (cleanup_memory_step max_age key w)) = cache_dir w
  ∧ faults (snd (cleanup_memory_step max_age key w)) = faults w
  ∧ log (snd (cleanup_memory_step max_age key w)) = log w
  ∧ ∀ other, other ≠ key →
      memory_cache (snd (cleanup_memory_step max_age key w)) !! other
      = memory_cache w !! other.
Proof.
  unfold cleanup_memory_step; unfold_monad.
  destruct (memory_cache w !! key) as [v|]; simpl; [|done].
  pose proof (is_cache_valid_frame v max_age w) as Hframe.
  destruct (_is_cache_valid v max_age w) as [[[]|] w1]; simpl in *;
    destruct Hframe as [-> | ->]; simpl; split_and!; try done;
    intros other Hne; by rewrite lookup_delete_ne.
Qed.

(** The sweep of the memory tier raises as soon as one of its keys holds
    a value without timestamp, and until then no file was looked at. *)
Lemma memory_sweep_raises M l : ∀ w key v e,
  timedelta_bool M = true →
  NoDup l → key ∈ l →
  memory_cache w !! key = Some v →
  getitem v "timestamp" = Raise e →
  ∃ e' w', for_each l (cleanup_memory_step (Some M)) w = (Raise e', w')
           ∧ cache_dir w' = cache_dir w
           ∧ faults w' = faults w
           ∧ log w' = log w.
Proof.
  induction l as [|k l IH]; intros w key v e HM Hnd Hin Hmem Hstamp.
  - by apply elem_of_nil in Hin.
  - apply NoDup_cons in Hnd as [Hk Hnd]. rewrite for_each_cons.
    apply elem_of_cons in Hin as [<- | Hin].
    + unfold cleanup_memory_step; unfold_monad.
      rewrite Hmem, (is_cache_valid_unstamped v M e w HM Hstamp). simpl.
      by exists e, w.
    + destruct (cleanup_memory_step_frame (Some M) k w) as (Hd & Hf & Hl & Hother).
      destruct (cleanup_memory_step (Some M) k w) as [[[]|e1] w1]; simpl in *.
      * destruct (IH w1 key v e HM Hnd Hin) as (e' & w' & -> & Hd' & Hf' & Hl'); [|done|].
        { rewrite Hother; [done|]. intros ->. contradiction. }
        exists e', w'. split; [done|]. split_and!; congruence.
      * by exists e1, w1.
Qed.

(** X4. One value without timestamp in the memory tier stops [cleanup]
    with a non-zero [max_age] before it reaches the files: whatever else
    the tiers hold, no filesystem call is made, every file stays, expired
    or not, and one error is logged. *)
Theorem cleanup_stops_at_unstamped
    (M : timedelta) (w : world) (key : string) (v : pyval) (e : exn) :
  M ≠ 0 →
  memory_cache w !! key = Some v →
  getitem v "timestamp" = Raise e →
  ∃ w', cleanup (Some M) w = (Ok tt, w')
        ∧ cache_dir w' = cache_dir w
        ∧ faults w' = faults w
        ∧ errors w' = S (errors w).
Proof.
  intros HM Hmem Hstamp. apply timedelta_bool_true in HM.
  destruct (memory_sweep_raises M (map_to_list (memory_cache w)).*1 w key v e HM)
    as (e' & w' & Hsweep & Hd & Hf & Hl); try done.
  { apply NoDup_fst_map_to_list. }
  { apply list_elem_of_fmap. exists (key, v). split; [done|]. by apply elem_of_map_to_list. }
  unfold cleanup; unfold_monad. rewrite Hsweep. simpl.
  eexists; split; [reflexivity|]. simpl. split_and!; try done.
  unfold errors. simpl. by rewrite Hl.
Qed.

Lemma cleanup_stops_at_unstamped_witness :
  (5 ≠ 0
   ∧ memory_cache poisoned !! "a" = Some (PList [PNum 1])
   ∧ getitem (PList [PNum 1]) "timestamp" = Raise TypeError)
  ∧ ∃ w', cleanup (Some 5) poisoned = (Ok tt, w')
          ∧ cache_dir w' = cache_dir poisoned
          ∧ faults w' = faults poisoned
          ∧ errors w' = S (errors poisoned).
Proof.
  assert (H1 : 5 ≠ 0) by lia.
  assert (H2 : memory_cache poisoned !! "a" = Some (PList [PNum 1]))
    by apply lookup_singleton_eq.
  assert (H3 : getitem (PList [PNum 1]) "timestamp" = Raise TypeError) by reflexivity.
  split; [by split_and! |].
  exact (cleanup_stops_at_unstamped 5 poisoned "a" (PList [PNum 1]) TypeError H1 H2 H3).
Defined.

(** X5. Such a value gets there through [get]: without [max_age], when no
    filesystem call fails, a [get] that finds in the key's file a document
    that is true but has no ["data"] returns [None] and logs one error,
    after it has put the document into the memory tier. *)
Theorem get_promotes_unusable (key : string) (w : world) (doc : pyval) (e : exn) :
  faults w = [] →
  memory_cache w !! key = None →
  cache_dir w !! _get_cache_file_path key = Some (Json doc) →
  truthy doc = true →
  getitem doc "data" = Raise e →
  ∃ w', get key None w = (Ok PNone, w')
        ∧ memory_cache w' = <[key := doc]> (memory_cache w)
        ∧ cache_dir w' = cache_dir w
        ∧ errors w' = S (errors w).
Proof.
  intros Hfree Hmem Hfile Htruthy Hdata.
  unfold get, get_try, get_try_disk; unfold_monad.
  rewrite Hmem, path_exists_run, Hfree, (io_done_fault_free w Hfree), Hfile. simpl.
  rewrite (read_cache_file_fault_free _ _ Hfree), Hfile. simpl.
  rewrite Htruthy. simpl. rewrite Hdata. simpl.
  eexists; split; [reflexivity|]. by simpl.
Qed.

Lemma get_promotes_unusable_witness :
  (faults foreign = []
   ∧ memory_cache foreign !! "a" = None
   ∧ cache_dir foreign !! _get_cache_file_path "a" = Some (Json x1)
   ∧ truthy x1 = true
   ∧ getitem x1 "data" = Raise (KeyError "data"))
  ∧ ∃ w', get "a" None foreign = (Ok PNone, w')
          ∧ memory_cache w' = <["a" := x1]> (memory_cache foreign)
          ∧ cache_dir w' = cache_dir foreign
          ∧ errors w' = S (errors foreign).
Proof.
  assert (H1 : faults foreign = []) by reflexivity.
  assert (H2 : memory_cache foreign !! "a" = None) by apply lookup_empty.
  assert (H3 : cache_dir foreign !! _get_cache_file_path "a" = Some (Json x1))
    by apply lookup_singleton_eq.
  assert (H4 : truthy x1 = true) by reflexivity.
  assert (H5 : getitem x1 "data" = Raise (KeyError "data")) by reflexivity.
  split; [by split_and! |].
  exact (get_promotes_unusable "a" foreign x1 (KeyError "data") H1 H2 H3 H4 H5).
Defined.

(** ** What [set] leaves behind *)

(** [set] when no filesystem call fails: both tiers are written, the file
    with the entry or, for a payload that [json] cannot write, with an
    unfinished document; the success message is logged in both cases. *)
Lemma set_fault_free key data lifetime w :
  faults w = [] →
  set key data lifetime w
  = (Ok tt,
     let entry := cache_entry_of (clock w) lifetime data in
     let stamped := set_memory_cache (insert key entry) (tick w) in
     if serialisable data
     then set_log (cons (INFO ("Successfully cached data for key: " +:+ key)))
            (set_cache_dir (insert (_get_cache_file_path key) (Json entry)) stamped)
     else set_log (fun l => INFO ("Successfully cached data for key: " +:+ key)
                            :: ERROR "Error writing cache file" TypeError :: l)
            (set_cache_dir (insert (_get_cache_file_path key) Undecodable) stamped)).
Proof.
  intros Hfree. destruct w as [mem dir now later fates lg]. simpl in Hfree. subst fates.
  unfold set, _write_cache_file, json_dump_file, next_outcome; unfold_monad.
  pose proof (serialisable_cache_entry_of now lifetime data) as Hser.
  unfold cache_entry_of in Hser at 1. simpl in Hser. rewrite Hser.
  destruct (serialisable data); reflexivity.
Qed.

(** X6. A second [set] replaces the first in both tiers: after
    [set(k, v1)] and [set(k, v2)], when no filesystem call fails and [v2] can
    be written, the memory tier and the key's file hold the same entry,
    the one of the second call, and [get(k)] returns [v2]. *)
Theorem set_replaces
    (key : string) (d1 d2 : pyval) (l1 l2 : option timedelta) (w : world) :
  faults w = [] →
  serialisable d2 = true →
  ∃ w2, (set key d1 l1 ;; set key d2 l2) w = (Ok tt, w2)
        ∧ memory_cache w2 !! key = Some (cache_entry_of (clock (tick w)) l2 d2)
        ∧ cache_dir w2 !! _get_cache_file_path key
          = Some (Json (cache_entry_of (clock (tick w)) l2 d2))
        ∧ fst (get key None w2) = Ok d2.
Proof.
  intros Hfree Hser. unfold bind.
  destruct (set_run key d1 l1 w) as (w1 & -> & _ & _ & Hclock & _ & Hfaults).
  assert (Hfree1 : faults w1 = []) by (rewrite Hfaults, Hfree; reflexivity).
  rewrite (set_fault_free key d2 l2 w1 Hfree1), Hser, Hclock.
  eexists; split; [reflexivity|]. cbv zeta.
  split; [apply lookup_insert_eq|]. split; [apply lookup_insert_eq|].
  rewrite (get_memory_hit key None _ (entry_of (clock (tick w)) l2 d2)).
  - reflexivity.
  - rewrite <- cache_entry_of_entry. apply lookup_insert_eq.
  - reflexivity.
Qed.

Lemma set_replaces_witness :
  (faults stored = [] ∧ serialisable (PStr "new") = true)
  ∧ ∃ w2, (set "a" x1 (Some 5) ;; set "a" (PStr "new") None) stored = (Ok tt, w2)
          ∧ memory_cache w2 !! "a" = Some (cache_entry_of (clock (tick stored)) None (PStr "new"))
          ∧ cache_dir w2 !! _get_cache_file_path "a"
            = Some (Json (cache_entry_of (clock (tick stored)) None (PStr "new")))
          ∧ fst (get "a" None w2) = Ok (PStr "new").
Proof.
  assert (H1 : faults stored = []) by reflexivity.
  assert (H2 : serialisable (PStr "new") = true) by reflexivity.
  split; [by split|].
  exact (set_replaces "a" x1 (PStr "new") (Some 5) None stored H1 H2).
Defined.

Lemma invalidate_run key w :
  ∃ w', invalidate key w = (Ok tt, w')
        ∧ memory_cache w' = delete key (memory_cache w)
        ∧ (cache_dir w' = cache_dir w
           ∨ cache_dir w' = delete (_get_cache_file_path key) (cache_dir w)).
Proof.
  unfold invalidate; unfold_monad. rewrite path_exists_run. simpl.
  destruct (hd io_ok (faults w)) eqn:Hfirst; simpl;
    try (eexists; split; [reflexivity|]; split; [reflexivity | by left]).
  destruct (bool_decide _); simpl;
    try (eexists; split; [reflexivity|]; split; [reflexivity | by left]).
  rewrite unlink_run. simpl.
  destruct (hd io_ok (tail (faults w))),
           (cache_dir w !! _get_cache_file_path key); simpl;
    eexists; (split; [reflexivity|]); (split; [reflexivity|]); simpl; auto.
Qed.

(** X7. [set] and [invalidate] touch the slots of their own key only: in
    every world, whatever fails, every other key of the memory tier and
    every file but the key's own is afterwards what it was. *)
Theorem set_and_invalidate_touch_one_key
    (key : string) (data : pyval) (lifetime : option timedelta) (w : world) :
  (∀ other, other ≠ key →
     memory_cache (snd (set key data lifetime w)) !! other = memory_cache w !! other)
  ∧ (∀ name, name ≠ _get_cache_file_path key →
       cache_dir (snd (set key data lifetime w)) !! name = cache_dir w !! name)
  ∧ (∀ other, other ≠ key →
       memory_cache (snd (invalidate key w)) !! other = memory_cache w !! other)
  ∧ (∀ name, name ≠ _get_cache_file_path key →
       cache_dir (snd (invalidate key w)) !! name = cache_dir w !! name).
Proof.
  destruct (set_run key data lifetime w) as (w1 & -> & Hm1 & Hd1 & _).
  destruct (invalidate_run key w) as (w2 & -> & Hm2 & Hd2). simpl.
  split_and!.
  - intros other Hne. rewrite Hm1. by apply lookup_insert_ne.
  - intros name Hne. rewrite Hd1. destruct (written _ w); [|done].
    by apply lookup_insert_ne.
  - intros other Hne. rewrite Hm2. by apply lookup_delete_ne.
  - intros name Hne. destruct Hd2 as [-> | ->]; [done|]. by apply lookup_delete_ne.
Qed.

(** ** Across a restart *)

Lemma init_run w :
  snd (__init__ w) = io_done (set_memory_cache (fun _ => ∅) w)
  ∧ (hd io_ok (faults w) = io_ok → fst (__init__ w) = Ok tt).
Proof.
  unfold __init__, mkdir, next_outcome; unfold_monad.
  destruct w as [mem dir now later fates lg]. destruct fates as [|[] fates]; by split.
Qed.

(** X8. What [set] wrote outlives the process: when no filesystem call
    fails and the payload can be written as JSON, then after [set(k, v, ttl)]
    and the start of a new process on the same directory, the memory tier is
    empty, and a [get(k, max_age)] at which the entry is still valid returns
    [v] and has the entry of the first process in memory again. *)
Theorem set_survives_restart
    (key : string) (data : pyval) (lifetime max_age : option timedelta) (w w2 : world) :
  faults w = [] →
  serialisable data = true →
  same_store (snd ((set key data lifetime ;; __init__) w)) w2 →
  faults w2 = [] →
  Forall (fun t => valid_at (entry_of (clock w) lifetime data) max_age t = true)
         (readings w2) →
  fst ((set key data lifetime ;; __init__) w) = Ok tt
  ∧ memory_cache w2 = ∅
  ∧ ∃ w', get key max_age w2 = (Ok data, w')
          ∧ memory_cache w' !! key = Some (cache_entry_of (clock w) lifetime data).
Proof.
  intros Hfree Hser. unfold bind.
  rewrite (set_fault_free key data lifetime w Hfree), Hser. cbv zeta.
  match goal with |- context [__init__ ?W] =>
    destruct (init_run W) as [Hsnd Hfst]; set (w1 := W) in * end.
  assert (Hfree1 : faults w1 = []) by (unfold w1; simpl; by rewrite Hfree).
  rewrite Hfree1 in Hfst. specialize (Hfst eq_refl).
  destruct (__init__ w1) as [r w1']. simpl in Hsnd, Hfst. subst r w1'.
  intros [Hmem Hdir] Hfree2 Hvalid. simpl in Hmem, Hdir.
  split; [reflexivity|]. split; [exact Hmem|].
  assert (Hfile : cache_dir w2 !! _get_cache_file_path key
                  = Some (Json (py_of_entry (entry_of (clock w) lifetime data)))).
  { rewrite Hdir, <- cache_entry_of_entry. unfold w1. apply lookup_insert_eq. }
  assert (Hmiss : memory_miss key max_age w2) by (left; rewrite Hmem; apply lookup_empty).
  destruct (get_disk_hit key max_age w2 _ Hfree2 Hmiss Hfile Hvalid)
    as (w' & Hget & Hmem' & _).
  exists w'. split; [exact Hget|].
  rewrite Hmem', cache_entry_of_entry. apply lookup_insert_eq.
Qed.

Lemma set_survives_restart_witness :
  (faults (empty_world 0) = [] ∧ serialisable x1 = true
   ∧ same_store (snd ((set "a" x1 None ;; __init__) (empty_world 0))) restarted
   ∧ faults restarted = []
   ∧ Forall (fun t => valid_at (entry_of (clock (empty_world 0)) None x1) None t = true)
            (readings restarted))
  ∧ fst ((set "a" x1 None ;; __init__) (empty_world 0)) = Ok tt
  ∧ memory_cache restarted = ∅
  ∧ ∃ w', get "a" None restarted = (Ok x1, w')
          ∧ memory_cache w' !! "a" = Some (cache_entry_of (clock (empty_world 0)) None x1).
Proof.
  assert (H1 : faults (empty_world 0) = []) by reflexivity.
  assert (H2 : serialisable x1 = true) by reflexivity.
  assert (H3 : same_store (snd ((set "a" x1 None ;; __init__) (empty_world 0))) restarted)
    by (split; reflexivity).
  assert (H4 : faults restarted = []) by (vm_compute; reflexivity).
  assert (H5 : Forall (fun t => valid_at (entry_of (clock (empty_world 0)) None x1) None t
                                = true) (readings restarted))
    by (apply Forall_forall; intros; reflexivity).
  split; [by split_and! |].
  exact (set_survives_restart "a" x1 None None (empty_world 0) restarted H1 H2 H3 H4 H5).
Defined.

(** X9. A payload that [json] cannot write lives in the memory tier only:
    when no filesystem call fails, [set] returns, [get] without [max_age]
    serves the payload from memory, the key's file is left undecodable
    (whatever it held), the log gets the write error followed by the message
    of success, and a process that has not the key in memory gets [None]. *)
Theorem unserialisable_payload_is_memory_only
    (key : string) (data : pyval) (lifetime : option timedelta) (w : world) :
  faults w = [] →
  serialisable data = false →
  ∃ w1, set key data lifetime w = (Ok tt, w1)
        ∧ fst (get key None w1) = Ok data
        ∧ cache_dir w1 !! _get_cache_file_path key = Some Undecodable
        ∧ log w1 = INFO ("Successfully cached data for key: " +:+ key)
                   :: ERROR "Error writing cache file" TypeError :: log w
        ∧ ∀ max_age w2,
            memory_cache w2 !! key = None → cache_dir w2 = cache_dir w1 →
            fst (get key max_age w2) = Ok PNone.
Proof.
  intros Hfree Hser.
  rewrite (set_fault_free key data lifetime w Hfree), Hser. cbv zeta.
  eexists; split; [reflexivity|].
  assert (Hfile : ∀ m l, cache_dir (set_log l
                     (set_cache_dir (insert (_get_cache_file_path key) Undecodable) m))
                   !! _get_cache_file_path key = Some Undecodable)
    by (intros; apply lookup_insert_eq).
  split_and!.
  - rewrite (get_memory_hit key None _ (entry_of (clock w) lifetime data)).
    + reflexivity.
    + rewrite <- cache_entry_of_entry. apply lookup_insert_eq.
    + reflexivity.
  - apply Hfile.
  - reflexivity.
  - intros max_age w2 Hmem Hdir.
    destruct (get_nothing key max_age w2) as (w' & -> & _); [by left | | reflexivity].
    right; left. rewrite Hdir. apply Hfile.
Qed.

Lemma unserialisable_payload_is_memory_only_witness :
  (faults (empty_world 0) = [] ∧ serialisable (PObject 0) = false)
  ∧ ∃ w1, set "a" (PObject 0) None (empty_world 0) = (Ok tt, w1)
          ∧ fst (get "a" None w1) = Ok (PObject 0)
          ∧ cache_dir w1 !! _get_cache_file_path "a" = Some Undecodable
          ∧ log w1 = INFO ("Successfully cached data for key: " +:+ "a")
                     :: ERROR "Error writing cache file" TypeError :: log (empty_world 0)
          ∧ ∀ max_age w2,
              memory_cache w2 !! "a" = None → cache_dir w2 = cache_dir w1 →
              fst (get "a" max_age w2) = Ok PNone.
Proof.
  assert (H1 : faults (empty_world 0) = []) by reflexivity.
  assert (H2 : serialisable (PObject 0) = false) by reflexivity.
  split; [by split|].
  exact (unserialisable_payload_is_memory_only "a" (PObject 0) None (empty_world 0) H1 H2).
Defined.

(** ** When the durable tier does not follow *)

Lemma errors_cons_error msg e l w :
  log w = ERROR msg e :: l → errors w = S (List.length (List.filter is_error l)).
Proof. unfold errors. by intros ->. Qed.

(** X10. An [invalidate] whose [unlink] fails is silent and does not last:
    when the key's file is seen but cannot be removed, [invalidate] returns
    with the key out of the memory tier, the file where it was and one
    error in the log; and a later [get] at which the file's entry is valid
    returns its payload again. *)
Theorem failed_invalidate_does_not_last (key : string) (w : world) (e : entry) :
  cache_dir w !! _get_cache_file_path key = Some (Json (py_of_entry e)) →
  hd io_ok (faults w) = io_ok →
  hd io_ok (tl (faults w)) ≠ io_ok →
  ∃ w1, invalidate key w = (Ok tt, w1)
        ∧ memory_cache w1 !! key = None
        ∧ cache_dir w1 = cache_dir w
        ∧ errors w1 = S (errors w)
        ∧ ∀ max_age w2,
            same_store w1 w2 → faults w2 = [] →
            Forall (fun t => valid_at e max_age t = true) (readings w2) →
            fst (get key max_age w2) = Ok (payload e).
Proof.
  intros Hfile Hfirst Hsecond.
  assert (Hrun : ∃ x, invalidate key w
                      = (Ok tt, set_log (cons (ERROR "Error invalidating cache" x))
                                  (io_done (io_done (set_memory_cache (delete key) w))))).
  { unfold invalidate; unfold_monad. rewrite path_exists_run. simpl.
    rewrite Hfirst, Hfile. simpl. rewrite unlink_run. simpl.
    destruct (hd io_ok (tl (faults w))); [done|..]; simpl; by eexists. }
  destruct Hrun as (x & ->). eexists; split; [reflexivity|].
  split; [apply lookup_delete_eq|]. split; [reflexivity|]. split; [reflexivity|].
  intros max_age w2 [Hmem Hdir] Hfree Hvalid. simpl in Hmem, Hdir.
  destruct (get_disk_hit key max_age w2 e Hfree) as (w' & -> & _); try done.
  - left. rewrite Hmem. apply lookup_delete_eq.
  - by rewrite Hdir.
Qed.

Lemma failed_invalidate_does_not_last_witness :
  (cache_dir (with_faults [io_ok; io_fail] shadowed) !! _get_cache_file_path "a"
   = Some (Json (py_of_entry (mkEntry 0 None (PStr "other"))))
   ∧ hd io_ok (faults (with_faults [io_ok; io_fail] shadowed)) = io_ok
   ∧ hd io_ok (tl (faults (with_faults [io_ok; io_fail] shadowed))) ≠ io_ok)
  ∧ ∃ w1, invalidate "a" (with_faults [io_ok; io_fail] shadowed) = (Ok tt, w1)
          ∧ memory_cache w1 !! "a" = None
          ∧ cache_dir w1 = cache_dir (with_faults [io_ok; io_fail] shadowed)
          ∧ errors w1 = S (errors (with_faults [io_ok; io_fail] shadowed))
          ∧ ∀ max_age w2,
              same_store w1 w2 → faults w2 = [] →
              Forall (fun t => valid_at (mkEntry 0 None (PStr "other")) max_age t = true)
                     (readings w2) →
              fst (get "a" max_age w2) = Ok (payload (mkEntry 0 None (PStr "other"))).
Proof.
  assert (H1 : cache_dir (with_faults [io_ok; io_fail] shadowed) !! _get_cache_file_path "a"
               = Some (Json (py_of_entry (mkEntry 0 None (PStr "other")))))
    by apply lookup_singleton_eq.
  assert (H2 : hd io_ok (faults (with_faults [io_ok; io_fail] shadowed)) = io_ok)
    by reflexivity.
  assert (H3 : hd io_ok (tl (faults (with_faults [io_ok; io_fail] shadowed))) ≠ io_ok)
    by discriminate.
  split; [by split_and! |].
  exact (failed_invalidate_does_not_last "a" (with_faults [io_ok; io_fail] shadowed)
           (mkEntry 0 None (PStr "other")) H1 H2 H3).
Defined.

(** X11. A [set] whose file cannot be opened keeps the older record: the
    new payload is served from memory, the key's file still holds the entry
    it held, one error is logged, and a process without the key in memory
    (a new one) gets the older payload from [get]. *)
Theorem failed_write_keeps_the_older_record
    (key : string) (data : pyval) (lifetime : option timedelta) (w : world) (old : entry) :
  hd io_ok (faults w) = io_fail →
  cache_dir w !! _get_cache_file_path key = Some (Json (py_of_entry old)) →
  ∃ w1, set key data lifetime w = (Ok tt, w1)
        ∧ fst (get key None w1) = Ok data
        ∧ cache_dir w1 = cache_dir w
        ∧ errors w1 = S (errors w)
        ∧ ∀ w2, memory_cache w2 !! key = None → cache_dir w2 = cache_dir w1 →
                faults w2 = [] →
                fst (get key None w2) = Ok (payload old).
Proof.
  intros Hfirst Hfile.
  assert (Hrun : set key data lifetime w
                 = (Ok tt,
                    set_log (fun l => INFO ("Successfully cached data for key: " +:+ key)
                                      :: ERROR "Error writing cache file" OSError :: l)
                      (io_done (set_memory_cache
                                  (insert key (cache_entry_of (clock w) lifetime data))
                                  (tick w))))).
  { unfold set, _write_cache_file, json_dump_file, next_outcome; unfold_monad.
    by rewrite Hfirst. }
  rewrite Hrun. eexists; split; [reflexivity|]. split_and!.
  - rewrite (get_memory_hit key None _ (entry_of (clock w) lifetime data)).
    + reflexivity.
    + rewrite <- cache_entry_of_entry. apply lookup_insert_eq.
    + reflexivity.
  - reflexivity.
  - reflexivity.
  - intros w2 Hmem Hdir Hfree.
    destruct (get_disk_hit key None w2 old Hfree) as (w' & -> & _); try done.
    + by left.
    + by rewrite Hdir.
    + apply Forall_forall. by intros.
Qed.

Lemma failed_write_keeps_the_older_record_witness :
  (hd io_ok (faults (with_faults [io_fail] shadowed)) = io_fail
   ∧ cache_dir (with_faults [io_fail] shadowed) !! _get_cache_file_path "a"
     = Some (Json (py_of_entry (mkEntry 0 None (PStr "other")))))
  ∧ ∃ w1, set "a" x1 None (with_faults [io_fail] shadowed) = (Ok tt, w1)
          ∧ fst (get "a" None w1) = Ok x1
          ∧ cache_dir w1 = cache_dir (with_faults [io_fail] shadowed)
          ∧ errors w1 = S (errors (with_faults [io_fail] shadowed))
          ∧ ∀ w2, memory_cache w2 !! "a" = None → cache_dir w2 = cache_dir w1 →
                  faults w2 = [] →
                  fst (get "a" None w2) = Ok (payload (mkEntry 0 None (PStr "other"))).
Proof.
  assert (H1 : hd io_ok (faults (with_faults [io_fail] shadowed)) = io_fail)
    by reflexivity.
  assert (H2 : cache_dir (with_faults [io_fail] shadowed) !! _get_cache_file_path "a"
               = Some (Json (py_of_entry (mkEntry 0 None (PStr "other")))))
    by apply lookup_singleton_eq.
  split; [by split|].
  exact (failed_write_keeps_the_older_record "a" x1 None (with_faults [io_fail] shadowed)
           (mkEntry 0 None (PStr "other")) H1 H2).
Defined.

(** ** The two tiers in [get] *)

Lemma checked_log m w : log (checked m w) = log w.
Proof. destruct m as [d|]; [|reflexivity]. simpl. destruct (timedelta_bool d); reflexivity. Qed.

(** X12. The memory tier is asked first and, when it answers, the
    directory is not looked at: a [get] that finds a valid entry in memory
    returns its payload without a filesystem call and without an error,
    whatever the key's file holds and whatever failures lie ahead, and
    leaves both tiers as they were. *)
Theorem memory_answers_first
    (key : string) (max_age : option timedelta) (w : world) (e : entry) :
  memory_cache w !! key = Some (py_of_entry e) →
  valid_at e max_age (clock w) = true →
  ∃ w', get key max_age w = (Ok (payload e), w')
        ∧ same_store w w'
        ∧ faults w' = faults w
        ∧ errors w' = errors w.
Proof.
  intros Hmem Hvalid. rewrite (get_memory_hit key max_age w e Hmem Hvalid).
  eexists; split; [reflexivity|]. unfold same_store, errors, set_log. simpl.
  by rewrite checked_memory, checked_cache_dir, checked_faults, checked_log.
Qed.

Lemma memory_answers_first_witness :
  (memory_cache (with_faults [io_fail] shadowed) !! "a" = Some (py_of_entry (mkEntry 0 None x1))
   ∧ valid_at (mkEntry 0 None x1) (Some 5) (clock (with_faults [io_fail] shadowed)) = true)
  ∧ ∃ w', get "a" (Some 5) (with_faults [io_fail] shadowed)
          = (Ok (payload (mkEntry 0 None x1)), w')
          ∧ same_store (with_faults [io_fail] shadowed) w'
          ∧ faults w' = faults (with_faults [io_fail] shadowed)
          ∧ errors w' = errors (with_faults [io_fail] shadowed).
Proof.
  assert (H1 : memory_cache (with_faults [io_fail] shadowed) !! "a"
               = Some (py_of_entry (mkEntry 0 None x1))) by apply lookup_singleton_eq.
  assert (H2 : valid_at (mkEntry 0 None x1) (Some 5)
                 (clock (with_faults [io_fail] shadowed)) = true) by reflexivity.
  split; [by split|].
  exact (memory_answers_first "a" (Some 5) (with_faults [io_fail] shadowed)
           (mkEntry 0 None x1) H1 H2).
Defined.

(** X13. A key that is in neither tier is no error: when no filesystem
    call fails, [get] returns [None], logs nothing and leaves the world as
    it was, for every [max_age]. *)
Theorem get_of_unknown_key (key : string) (max_age : option timedelta) (w : world) :
  faults w = [] →
  memory_cache w !! key = None →
  cache_dir w !! _get_cache_file_path key = None →
  get key max_age w = (Ok PNone, w).
Proof.
  intros Hfree Hmem Hfile. unfold get, get_try, get_try_disk; unfold_monad.
  rewrite Hmem, path_exists_run, Hfree, (io_done_fault_free w Hfree), Hfile. simpl.
  reflexivity.
Qed.

Lemma get_of_unknown_key_witness :
  (faults stored = [] ∧ memory_cache stored !! "b" = None
   ∧ cache_dir stored !! _get_cache_file_path "b" = None)
  ∧ get "b" (Some 5) stored = (Ok PNone, stored).
Proof.
  assert (H1 : faults stored = []) by reflexivity.
  assert (H2 : memory_cache stored !! "b" = None) by (vm_compute; reflexivity).
  assert (H3 : cache_dir stored !! _get_cache_file_path "b" = None)
    by (vm_compute; reflexivity).
  split; [by split_and! |].
  exact (get_of_unknown_key "b" (Some 5) stored H1 H2 H3).
Defined.

(** ** The names of the cache files *)

Lemma round_length st kw : List.length st = 8%nat → List.length (SHA256.round st kw) = 8%nat.
Proof.
  intros H. do 9 (destruct st as [|? st]; try discriminate H). reflexivity.
Qed.

Lemma fold_round_length l : ∀ st,
  List.length st = 8%nat → List.length (fold_left SHA256.round l st) = 8%nat.
Proof.
  induction l as [|kw l IH]; intros st H; [exact H|]. simpl. apply IH. by apply round_length.
Qed.

Lemma compress_length h block :
  List.length h = 8%nat → List.length (SHA256.compress h block) = 8%nat.
Proof.
  intros H. unfold SHA256.compress.
  rewrite List.length_map, List.length_combine, fold_round_length, H by exact H.
  reflexivity.
Qed.

Lemma digest_length msg : List.length (SHA256.digest msg) = 8%nat.
Proof.
  unfold SHA256.digest.
  generalize (SHA256.blocks_of (List.length (SHA256.words_of_bytes (SHA256.pad msg)))
                (SHA256.words_of_bytes (SHA256.pad msg))).
  assert (H : List.length SHA256.H0 = 8%nat) by reflexivity.
  revert H. generalize SHA256.H0. intros h H l. revert h H.
  induction l as [|b l IH]; intros h H; [exact H|]. simpl. apply IH. by apply compress_length.
Qed.

Lemma hex_digit_is_hex d : 0 ≤ d < 16 → is_hex_digit (SHA256.hex_digit d) = true.
Proof.
  intros Hd. unfold SHA256.hex_digit.
  assert (Hn : (Z.to_nat d < 16)%nat) by lia.
  revert Hn. generalize (Z.to_nat d). intros n Hn.
  do 16 (destruct n as [|n]; [reflexivity|]). lia.
Qed.

Lemma hex_of_word_chars w :
  List.length (list_ascii_of_string (SHA256.hex_of_word w)) = 8%nat
  ∧ Forall (fun c => is_hex_digit c = true) (list_ascii_of_string (SHA256.hex_of_word w)).
Proof.
  unfold SHA256.hex_of_word. rewrite list_ascii_of_string_of_list_ascii.
  split; [reflexivity|].
  apply Forall_forall. intros c Hc. apply list_elem_of_fmap in Hc as (i & -> & _).
  apply hex_digit_is_hex. apply Z.mod_pos_bound. lia.
Qed.

Lemma chars_append s1 s2 :
  list_ascii_of_string (s1 +:+ s2)
  = (list_ascii_of_string s1 ++ list_ascii_of_string s2)%list.
Proof. induction s1 as [|c s1 IH]; [reflexivity|]. simpl. by rewrite IH. Qed.

Lemma chars_concat l :
  list_ascii_of_string (String.concat "" l)
  = List.concat (List.map list_ascii_of_string l).
Proof.
  induction l as [|s l IH]; [reflexivity|].
  destruct l as [|s' l].
  - simpl. by rewrite app_nil_r.
  - change (String.concat "" (s :: s' :: l)) with (s +:+ "" +:+ String.concat "" (s' :: l)).
    rewrite chars_append, chars_append, IH. reflexivity.
Qed.

Lemma chars_length s : String.length s = List.length (list_ascii_of_string s).
Proof. induction s as [|c s IH]; [reflexivity|]. simpl. by rewrite IH. Qed.

Lemma hex_words_chars ws :
  List.length (List.concat (List.map list_ascii_of_string (List.map SHA256.hex_of_word ws)))
  = (8 * List.length ws)%nat
  ∧ Forall (fun c => is_hex_digit c = true)
           (List.concat (List.map list_ascii_of_string (List.map SHA256.hex_of_word ws))).
Proof.
  induction ws as [|w ws [IHlen IHhex]]; [by split|].
  destruct (hex_of_word_chars w) as [Hlen Hhex]. cbn [List.map List.concat]. split.
  - rewrite List.length_app, Hlen, IHlen. cbn [List.length]. lia.
  - apply Forall_app. by split.
Qed.

(** X14. The file of a key is always named by 64 lower-case hexadecimal
    digits followed by [.cache], whatever characters the key has: the name
    has no path separator, and it is one that the [*.cache] listing of
    [clear] and [cleanup] matches. *)
Theorem cache_file_name_format (key : string) :
  ∃ h, _get_cache_file_path key = h +:+ ".cache"
       ∧ String.length h = 64%nat
       ∧ Forall (fun c => is_hex_digit c = true) (list_ascii_of_string h)
       ∧ has_suffix ".cache" (_get_cache_file_path key) = true.
Proof.
  exists (SHA256.hexdigest key). split; [reflexivity|].
  unfold SHA256.hexdigest. rewrite chars_length, chars_concat.
  destruct (hex_words_chars (SHA256.digest (SHA256.bytes_of_string key))) as [Hlen Hhex].
  rewrite Hlen, digest_length. split; [reflexivity|]. split; [exact Hhex|].
  apply cache_file_path_suffix.
Qed.

(** ** Expiry over time *)

Lemma valid_at_later e max_age t t' :
  valid_at e max_age t = false → t ≤ t' → valid_at e max_age t' = false.
Proof.
  unfold valid_at. destruct max_age as [m|]; [|done].
  destruct (negb (timedelta_bool m)); [done|]. cbv zeta.
  assert (Hage : ∀ d, (t - created_at e <? d) = false → t ≤ t' →
                      (t' - created_at e <? d) = false).
  { intros d H Hle. apply Z.ltb_ge. apply Z.ltb_ge in H. lia. }
  destruct (ttl e) as [q|]; [|apply Hage].
  destruct (negb (Qnum q =? 0)); [|apply Hage].
  unfold Qltb, total_seconds. simpl. intros H Hle.
  apply Z.ltb_ge. apply Z.ltb_ge in H.
  pose proof (Pos2Z.is_pos (Qden q)). nia.
Qed.

(** X15. Expiry is final as long as the clock does not go back: an entry
    that the validity check rejects for some [max_age] is rejected for the
    same [max_age] at every later reading of the clock, whether its own ttl
    or [max_age] decided. *)
Theorem expiry_is_final (e : entry) (max_age : option timedelta) (w w' : world) :
  fst (_is_cache_valid (py_of_entry e) max_age w) = Ok false →
  clock w ≤ clock w' →
  fst (_is_cache_valid (py_of_entry e) max_age w') = Ok false.
Proof.
  rewrite !is_cache_valid_entry. simpl. intros H Hle.
  f_equal. apply (valid_at_later e max_age (clock w)); [congruence | exact Hle].
Qed.

Lemma expiry_is_final_witness :
  (fst (_is_cache_valid (py_of_entry aged_entry) (Some 5) aged) = Ok false
   ∧ clock aged ≤ clock (tick aged))
  ∧ fst (_is_cache_valid (py_of_entry aged_entry) (Some 5) (tick aged)) = Ok false.
Proof.
  assert (H1 : fst (_is_cache_valid (py_of_entry aged_entry) (Some 5) aged) = Ok false)
    by (vm_compute; reflexivity).
  assert (H2 : clock aged ≤ clock (tick aged)) by (vm_compute; discriminate).
  split; [by split|].
  exact (expiry_is_final aged_entry (Some 5) aged (tick aged) H1 H2).
Defined.

(** ** [clear] when the directory cannot be listed *)


